(** * The dispatch engine of flux.js ([BaseDispatcher])

    A shallow embedding of the class [BaseDispatcher] of [src/flux.js] and
    the theorems that settle what its specification says about it.

    Modelling conventions.
    - The engine instance is a record [state] holding the fields of the
      class; every method is a function from the state before the call to
      an [outcome] and the state after it.  A method that throws still
      returns the state it has mutated so far, as in JavaScript.
    - [_payloadables] is iterated with [for ... in], so it is an association
      list in insertion order; [_isPending] and [_isHandled] are only read
      and written by key, so they are finite maps.  Objects are modelled by
      their own properties: the names every object inherits ([toString] and
      the like) are left out, and no token is such a name.
    - [_lastID] is a JavaScript number that only ever holds a positive
      integer; it is modelled by [N] (exact integer arithmetic).
    - A subscriber callback is arbitrary code; what matters to the engine is
      the sequence of engine methods it calls, whether it throws, and what it
      catches.  That is the small language [prog]; a callback is a function
      from the payload it receives to a [prog].
    - [log] is a ghost field: it records, in order, every callback entry and
      exit, so that ordering properties can be stated. *)

From Stdlib Require Import Ascii.
From stdpp Require Import base option list strings pretty gmap.

Section Flux.

Context {payload : Type}.

(** ** Values, errors, outcomes *)

(** The arguments handed to [waitFor]: a primitive string (such as a raw
    token) or an object, of which only the [dispatchToken] property is ever
    read ([None] when the object has no such property). *)
Inductive jsval : Type :=
| VStr (s : string)
| VObj (dispatchToken : option string).

(** [id.dispatchToken] (flux.js:87).  A primitive string has no such
    property, so the read yields [undefined], here [None]. *)
Definition get_dispatchToken (v : jsval) : option string :=
  match v with
  | VStr _ => None
  | VObj t => t
  end.

(** A value used as a property key or spliced into a message: [undefined]
    becomes the string "undefined". *)
Definition to_key (v : option string) : string := default "undefined" v.

(** The errors of the engine, by kind.  The source raises them through
    [invariant(false, message, id)]; the kinds are named as in the
    specification:
    - [UnknownSubscriber id]: "`id` does not map to a registered callback."
    - [NotDispatching]: "Must be invoked while dispatching."
    - [CircularDependency id]: "Circular dependency detected while waiting
      for `id`."
    - [ReentrantDispatch]: "Cannot dispatch in the middle of a dispatch."
    [TypeError] is what the runtime raises on [undefined._onPayload], and
    [UserError n] is an error thrown by subscriber code. *)
Inductive error : Type :=
| UnknownSubscriber (id : string)
| NotDispatching
| CircularDependency (id : string)
| ReentrantDispatch
| TypeError
| UserError (n : nat).

(** How a call ends.  [OutOfFuel] is the interpreter's own: the callback
    nesting went deeper than the fuel it was given. *)
Inductive outcome : Type :=
| Normal
| Throw (e : error)
| OutOfFuel.

(** [invariant(condition, format, ...)] (flux.js:19-39), with the formatted
    message abstracted to the error kind. *)
Definition invariant (condition : bool) (e : error) : outcome :=
  if condition then Normal else Throw e.

(** ** Subscriber code *)

Inductive prog : Type :=
| Skip
| Seq (p q : prog)
| Raise (n : nat)
| TryCatch (body handler : prog)
| Mark (n : nat)
| CallRegister (cb : option payload → prog)
| CallUnregister (id : string)
| CallWaitFor (args : list jsval)
| CallDispatch (pl : payload)
| IfDispatching (p q : prog).

(** A registered payloadable, reduced to what [_onPayload] does with the
    argument it is called with ([None] is [undefined]). *)
Definition callback : Type := option payload → prog.

(** ** Objects with insertion-ordered string keys *)

Section Obj.
Context {V : Type}.

Fixpoint obj_get (k : string) (o : list (string * V)) : option V :=
  match o with
  | [] => None
  | (k', v) :: o' => if decide (k = k') then Some v else obj_get k o'
  end.

(** [o[k] = v]: an existing key keeps its place, a new one goes last. *)
Fixpoint obj_set (k : string) (v : V) (o : list (string * V))
  : list (string * V) :=
  match o with
  | [] => [(k, v)]
  | (k', v') :: o' =>
      if decide (k = k') then (k', v) :: o' else (k', v') :: obj_set k v o'
  end.

(** [delete o[k]] *)
Fixpoint obj_delete (k : string) (o : list (string * V))
  : list (string * V) :=
  match o with
  | [] => []
  | (k', v') :: o' =>
      if decide (k = k') then obj_delete k o' else (k', v') :: obj_delete k o'
  end.

Definition obj_keys (o : list (string * V)) : list string := o.*1.

Definition obj_has (k : string) (o : list (string * V)) : bool :=
  bool_decide (is_Some (obj_get k o)).
End Obj.

(** Truthiness of a flag read from [_isPending] or [_isHandled]: an absent
    property reads [undefined], which is falsy. *)
Definition truthy (m : gmap string bool) (k : string) : bool :=
  default false (m !! k).

(** ** The engine state *)

Inductive caller : Type := ByDispatch | ByWaitFor.

Inductive event : Type :=
| Called (by_ : caller) (id : string) (arg : option payload)
| Handled (id : string)
| Raised (by_ : caller) (id : string) (e : error)
| Marked (n : nat).

Record state : Type := mkState {
  _payloadables : list (string * callback);
  _isDispatching : bool;
  _isHandled : gmap string bool;
  _isPending : gmap string bool;
  _lastID : N;
  _pendingPayload : option payload;
  log : list event
}.

Definition with_payloadables (o : list (string * callback)) (s : state) :=
  mkState o (_isDispatching s) (_isHandled s) (_isPending s) (_lastID s)
          (_pendingPayload s) (log s).
Definition with_isDispatching (b : bool) (s : state) :=
  mkState (_payloadables s) b (_isHandled s) (_isPending s) (_lastID s)
          (_pendingPayload s) (log s).
Definition with_isHandled (m : gmap string bool) (s : state) :=
  mkState (_payloadables s) (_isDispatching s) m (_isPending s) (_lastID s)
          (_pendingPayload s) (log s).
Definition with_isPending (m : gmap string bool) (s : state) :=
  mkState (_payloadables s) (_isDispatching s) (_isHandled s) m (_lastID s)
          (_pendingPayload s) (log s).
Definition with_lastID (n : N) (s : state) :=
  mkState (_payloadables s) (_isDispatching s) (_isHandled s) (_isPending s) n
          (_pendingPayload s) (log s).
Definition with_pendingPayload (p : option payload) (s : state) :=
  mkState (_payloadables s) (_isDispatching s) (_isHandled s) (_isPending s)
          (_lastID s) p (log s).
Definition emit (e : event) (s : state) :=
  mkState (_payloadables s) (_isDispatching s) (_isHandled s) (_isPending s)
          (_lastID s) (_pendingPayload s) (log s ++ [e]).

(** The field initialisers of the class (flux.js:56-60); [_pendingPayload]
    does not exist until the first round. *)
Definition init : state := mkState [] false ∅ ∅ 1 None [].

(** ** The methods of [BaseDispatcher] *)

Definition Prefix : string := "ID_".

(** [BaseDispatcher.Prefix + n]: the prefix followed by the decimal digits
    of [n]. *)
Definition token_of (n : N) : string := Prefix +:+ pretty n.

(** flux.js:67-71 *)
Definition register (payloadable : callback) (s : state) : string * state :=
  let id := token_of (_lastID s) in
  let s := with_lastID (_lastID s + 1)%N s in
  let s := with_payloadables (obj_set id payloadable (_payloadables s)) s in
  (id, s).

(** flux.js:76-79 *)
Definition unregister (id : string) (s : state) : outcome * state :=
  match (if negb (obj_has id (_payloadables s))
         then invariant false (UnknownSubscriber id) else Normal) with
  | Normal => (Normal, with_payloadables (obj_delete id (_payloadables s)) s)
  | r => (r, s)
  end.

(** flux.js:121-123 *)
Definition isDispatching (s : state) : bool := _isDispatching s.

(** flux.js:143-150 *)
Definition _startDispatching (pl : payload) (s : state) : state :=
  let s :=
    foldl (λ s id,
             let s := with_isPending (<[id := false]> (_isPending s)) s in
             with_isHandled (<[id := false]> (_isHandled s)) s)
          s (obj_keys (_payloadables s)) in
  let s := with_pendingPayload (Some pl) s in
  with_isDispatching true s.

(** flux.js:157-160 *)
Definition _stopDispatching (s : state) : state :=
  let s := with_pendingPayload None s in
  with_isDispatching false s.

Section Methods.
(** How the body of a callback is run: supplied by the interpreter
    [exec] below. *)
Variable call : prog → state → outcome * state.

(** flux.js:131-136.  [by_] only tags the log entries with the call
    site. *)
Definition _invokePayloadable (by_ : caller) (id : string) (s : state)
  : outcome * state :=
  let s := with_isPending (<[id := true]> (_isPending s)) s in
  match obj_get id (_payloadables s) with
  | None => (Throw TypeError, s)
  | Some payloadable =>
      let arg := _pendingPayload s in
      match call (payloadable arg) (emit (Called by_ id arg) s) with
      | (Normal, s) =>
          let s := with_isHandled (<[id := true]> (_isHandled s)) s in
          (Normal, emit (Handled id) s)
      | (Throw e, s) => (Throw e, emit (Raised by_ id e) s)
      | (OutOfFuel, s) => (OutOfFuel, s)
      end
  end.

(** The loop of flux.js:89-97. *)
Fixpoint waitFor_loop (ids : list string) (s : state) : outcome * state :=
  match ids with
  | [] => (Normal, s)
  | id :: ids' =>
      if truthy (_isPending s) id then
        match (if negb (truthy (_isHandled s) id)
               then invariant false (CircularDependency id)
               else Normal) with
        | Normal => waitFor_loop ids' s
        | r => (r, s)
        end
      else
        match (if negb (obj_has id (_payloadables s))
               then invariant false (UnknownSubscriber id)
               else Normal) with
        | Normal =>
            match _invokePayloadable ByWaitFor id s with
            | (Normal, s) => waitFor_loop ids' s
            | r => r
            end
        | r => (r, s)
        end
  end.

(** flux.js:86-98 *)
Definition waitFor (args : list jsval) (s : state) : outcome * state :=
  let ids := map (λ id, to_key (get_dispatchToken id)) args in
  match (if negb (_isDispatching s)
         then invariant false NotDispatching else Normal) with
  | Normal => waitFor_loop ids s
  | r => (r, s)
  end.

(** The loop of flux.js:107-112 over the keys [for ... in] enumerates:
    the keys the object had when the loop began, in insertion order,
    minus those deleted before their turn.  Keys added while the loop
    runs are not visited. *)
Fixpoint dispatch_loop (ids : list string) (s : state) : outcome * state :=
  match ids with
  | [] => (Normal, s)
  | id :: ids' =>
      if negb (obj_has id (_payloadables s)) then dispatch_loop ids' s
      else if truthy (_isPending s) id then dispatch_loop ids' s
      else
        match _invokePayloadable ByDispatch id s with
        | (Normal, s) => dispatch_loop ids' s
        | r => r
        end
  end.

(** flux.js:103-116 *)
Definition dispatch (pl : payload) (s : state) : outcome * state :=
  match (if _isDispatching s
         then invariant false ReentrantDispatch else Normal) with
  | Normal =>
      let s := _startDispatching pl s in
      let '(r, s) := dispatch_loop (obj_keys (_payloadables s)) s in
      (r, _stopDispatching s)
  | r => (r, s)
  end.

(** The body of a callback, statement by statement. *)
Fixpoint exec_body (p : prog) (s : state) : outcome * state :=
  match p with
  | Skip => (Normal, s)
  | Seq p q =>
      match exec_body p s with
      | (Normal, s) => exec_body q s
      | r => r
      end
  | Raise n => (Throw (UserError n), s)
  | TryCatch body handler =>
      match exec_body body s with
      | (Throw _, s) => exec_body handler s
      | r => r
      end
  | Mark n => (Normal, emit (Marked n) s)
  | CallRegister cb => (Normal, (register cb s).2)
  | CallUnregister id => unregister id s
  | CallWaitFor args => waitFor args s
  | CallDispatch pl => dispatch pl s
  | IfDispatching p q =>
      if isDispatching s then exec_body p s else exec_body q s
  end.
End Methods.

(** Callbacks nested at most [fuel] deep. *)
Fixpoint exec (fuel : nat) (p : prog) (s : state) : outcome * state :=
  match fuel with
  | O => (OutOfFuel, s)
  | S fuel => exec_body (exec fuel) p s
  end.

(** *** How deep a round can nest *)

(** The number of [register] calls a piece of subscriber code can make,
    counting those of the callbacks it registers. *)
Fixpoint regs (arg : option payload) (p : prog) : nat :=
  match p with
  | CallRegister cb => S (regs arg (cb arg))
  | Seq p q | TryCatch p q | IfDispatching p q => regs arg p + regs arg q
  | _ => 0
  end.

(** What the callbacks not yet pending can still contribute to the nesting
    depth: one level each, plus one for every subscriber they register. *)
Fixpoint weight (arg : option payload) (pending : gmap string bool)
    (o : list (string * callback)) : nat :=
  match o with
  | [] => 0
  | (k, cb) :: o' =>
      (if truthy pending k then 0 else S (regs arg (cb arg)))
      + weight arg pending o'
  end.

(** The same, read off an engine in the middle of a round. *)
Definition budget (s : state) : nat :=
  weight (_pendingPayload s) (_isPending s) (_payloadables s).

(** A call of [dispatch] from outside any round: the callbacks are run with
    as much fuel as the round can need (theorem [run_dispatch_total]). *)
Definition run_dispatch (pl : payload) (s : state) : outcome * state :=
  dispatch (exec (S (weight (Some pl) ∅ (_payloadables s)))) pl s.

(** ** Sequences of registrations and removals, and scenarios *)

Inductive op : Type :=
| OpRegister (payloadable : callback)
| OpUnregister (id : string).

(** Runs the operations in order and collects the tokens [register]
    returned; a failing [unregister] leaves the engine as it was. *)
Fixpoint run_ops (ops : list op) (s : state) : list string * state :=
  match ops with
  | [] => ([], s)
  | OpRegister cb :: ops' =>
      let '(id, s) := register cb s in
      let '(ids, s) := run_ops ops' s in
      (id :: ids, s)
  | OpUnregister id :: ops' => run_ops ops' (unregister id s).2
  end.

(** The ids whose callback is entered, in the order of entry. *)
Fixpoint called (evs : list event) : list string :=
  match evs with
  | [] => []
  | Called _ id _ :: evs' => id :: called evs'
  | _ :: evs' => called evs'
  end.

(** The ids entered by the loop of [dispatch] itself. *)
Fixpoint called_by_dispatch (evs : list event) : list string :=
  match evs with
  | [] => []
  | Called ByDispatch id _ :: evs' => id :: called_by_dispatch evs'
  | _ :: evs' => called_by_dispatch evs'
  end.

(** The ids marked handled, in the order of completion. *)
Fixpoint handled (evs : list event) : list string :=
  match evs with
  | [] => []
  | Handled id :: evs' => id :: handled evs'
  | _ :: evs' => handled evs'
  end.

Fixpoint marks (evs : list event) : list nat :=
  match evs with
  | [] => []
  | Marked n :: evs' => n :: marks evs'
  | _ :: evs' => marks evs'
  end.

Definition is_raised_by_dispatch (e : event) : bool :=
  match e with
  | Raised ByDispatch _ _ => true
  | _ => false
  end.

Definition is_by_dispatch (e : event) : bool :=
  match e with
  | Called ByDispatch _ _ | Raised ByDispatch _ _ => true
  | _ => false
  end.

Definition is_raised (e : event) : bool :=
  match e with
  | Raised _ _ _ => true
  | _ => false
  end.

(** Subscriber code that catches nothing, down to the callbacks it
    registers. *)
Fixpoint catch_free (arg : option payload) (p : prog) : Prop :=
  match p with
  | TryCatch _ _ => False
  | Seq p q | IfDispatching p q => catch_free arg p ∧ catch_free arg q
  | CallRegister cb => catch_free arg (cb arg)
  | _ => True
  end.

(** No registered callback catches anything when called with [arg]. *)
Definition registry_catch_free (arg : option payload) (s : state) : Prop :=
  ∀ k cb, (k, cb) ∈ _payloadables s → catch_free arg (cb arg).

(** How an execution that ends with [r] looks in the log when nothing is
    caught: no callback has raised anything until the end, where the same
    error leaves the callbacks that were open, one after the other. *)
Definition unwinds (r : outcome) (evs : list event) : Prop :=
  ∃ quiet raises,
    evs = quiet ++ raises ∧
    Forall (λ ev, is_raised ev = false) quiet ∧
    match r with
    | Throw e => Forall (λ ev, ∃ by_ id, ev = Raised by_ id e) raises
    | _ => raises = []
    end.

(** Every key of the registry and every id flagged pending has the shape
    of a token. *)
Definition wf (s : state) : Prop :=
  forallb (String.prefix Prefix) (obj_keys (_payloadables s)) = true ∧
  forallb (λ kb, implb kb.2 (String.prefix Prefix kb.1))
          (map_to_list (_isPending s)) = true.

(** A handled flag is only ever set on top of a pending flag. *)
Definition flags_ok (s : state) : Prop :=
  ∀ id, truthy (_isHandled s) id = true → truthy (_isPending s) id = true.

(** ** What a round does, as a relation

    [runs top s evs s']: the engine goes from [s] to [s'] by the moves a
    round is made of, appending [evs] to the log.  An invocation is one
    move: it flags the id pending, enters the callback, lets the callback
    make its own moves, and ends by flagging the id handled, by the
    callback's error, or by running out of fuel.  [top] says whether the
    moves are those of the loop of [dispatch] (which enters callbacks
    [ByDispatch]) or those of a callback body. *)
Inductive runs : bool → state → list event → state → Prop :=
| runs_refl top s : runs top s [] s
| runs_trans top s1 evs1 s2 evs2 s3 :
    runs top s1 evs1 s2 → runs top s2 evs2 s3 → runs top s1 (evs1 ++ evs2) s3
| runs_mark top n s : runs top s [Marked n] (emit (Marked n) s)
| runs_register top cb s : runs top s [] (register cb s).2
| runs_delete top id s :
    runs top s [] (with_payloadables (obj_delete id (_payloadables s)) s)
| runs_invoke_handled top by_ id cb s evs s' :
    (by_ = ByDispatch → top = true) →
    truthy (_isPending s) id = false →
    obj_get id (_payloadables s) = Some cb →
    runs false (emit (Called by_ id (_pendingPayload s))
                     (with_isPending (<[id := true]> (_isPending s)) s))
         evs s' →
    runs top s (Called by_ id (_pendingPayload s) :: evs ++ [Handled id])
         (emit (Handled id) (with_isHandled (<[id := true]> (_isHandled s')) s'))
| runs_invoke_raised top by_ id cb s evs s' e :
    (by_ = ByDispatch → top = true) →
    truthy (_isPending s) id = false →
    obj_get id (_payloadables s) = Some cb →
    runs false (emit (Called by_ id (_pendingPayload s))
                     (with_isPending (<[id := true]> (_isPending s)) s))
         evs s' →
    runs top s (Called by_ id (_pendingPayload s) :: evs ++ [Raised by_ id e])
         (emit (Raised by_ id e) s')
| runs_invoke_cut top by_ id cb s evs s' :
    (by_ = ByDispatch → top = true) →
    truthy (_isPending s) id = false →
    obj_get id (_payloadables s) = Some cb →
    runs false (emit (Called by_ id (_pendingPayload s))
                     (with_isPending (<[id := true]> (_isPending s)) s))
         evs s' →
    runs top s (Called by_ id (_pendingPayload s) :: evs) s'.

(** ** Scenarios *)

(** Four subscribers: the callback of [RA] waits for [RB] and then leaves
    mark 1, that of [RB] waits for [RC] and leaves mark 2, those of [RC]
    and [RD] wait for nobody and leave marks 3 and 4.  They are registered
    on a fresh engine in the order [order]; a subscriber object carries the
    token its registration returned. *)
Inductive role : Type := RA | RB | RC | RD.

Global Instance role_eq_dec : EqDecision role.
Proof. solve_decision. Defined.

Fixpoint position (r : role) (order : list role) : nat :=
  match order with
  | [] => 0
  | r' :: order' => if decide (r = r') then 0 else S (position r order')
  end.

Definition token_for (order : list role) (r : role) : string :=
  token_of (N.of_nat (S (position r order))).

Definition chain_callback (order : list role) (r : role) : callback :=
  λ _, match r with
       | RA => Seq (CallWaitFor [VObj (Some (token_for order RB))]) (Mark 1)
       | RB => Seq (CallWaitFor [VObj (Some (token_for order RC))]) (Mark 2)
       | RC => Mark 3
       | RD => Mark 4
       end.

Definition chain_engine (order : list role) : state :=
  foldl (λ s r, (register (chain_callback order r) s).2) init order.

(** Two subscribers that wait for each other: X gets the first token and
    waits for the holder of the second, Y the reverse. *)
Definition mutual_engine : state :=
  let X : callback :=
    λ _, Seq (CallWaitFor [VObj (Some (token_of 2))]) (Mark 1) in
  let Y : callback :=
    λ _, Seq (CallWaitFor [VObj (Some (token_of 1))]) (Mark 2) in
  (register Y (register X init).2).2.

(** One subscriber that does nothing. *)
Definition idle_engine : state := (register (λ _, Skip) init).2.

(** One subscriber whose callback registers a new subscriber, which gets
    the second token, and then waits for it. *)
Definition late_engine : state :=
  let fresh : callback := λ _, Mark 9 in
  let A : callback :=
    λ _, Seq (CallRegister fresh)
             (CallWaitFor [VObj (Some (token_of 2))]) in
  (register A init).2.

(** Three subscribers; the second one throws. *)
Definition failing_engine : state :=
  let A : callback := λ _, Mark 1 in
  let B : callback := λ _, Seq (Mark 2) (Raise 7) in
  let C : callback := λ _, Mark 3 in
  (register C (register B (register A init).2).2).2.

(** The events a call of [dispatch] appended to the log. *)
Definition round_log (pl : payload) (s : state) : list event :=
  drop (length (log s)) (log (run_dispatch pl s).2).

(** ** The claims as the specification words them, where the code differs *)

(** "the pending flags, the handled flags, and the stored payload are all
    removed, and isDispatching() returns false" *)
Definition round_state_cleared (s : state) : Prop :=
  (∀ id, truthy (_isPending s) id = false) ∧
  (∀ id, truthy (_isHandled s) id = false) ∧
  _pendingPayload s = None ∧
  isDispatching s = false.

(** "the set of subscribers invokable in a round is fixed when the round
    starts": whatever is entered during the round was registered when it
    began. *)
Definition late_never_invoked (pl : payload) (s : state) : Prop :=
  ∀ by_ id arg,
    Called by_ id arg ∈ round_log pl s → id ∈ obj_keys (_payloadables s).

(** ** Lemmas on objects and tokens *)

Lemma obj_has_true {V} k (o : list (string * V)) :
  obj_has k o = true ↔ ∃ v, obj_get k o = Some v.
Proof. unfold obj_has. rewrite bool_decide_eq_true. reflexivity. Qed.

Lemma obj_has_false {V} k (o : list (string * V)) :
  obj_has k o = false ↔ obj_get k o = None.
Proof.
  unfold obj_has. rewrite bool_decide_eq_false, <- eq_None_not_Some.
  reflexivity.
Qed.

Lemma obj_get_keys {V} k (o : list (string * V)) :
  is_Some (obj_get k o) ↔ k ∈ obj_keys o.
Proof.
  induction o as [|[k' v] o IH]; simpl.
  - split; [intros [? ?]; discriminate | intros H; inversion H].
  - destruct (decide (k = k')) as [->|Hne].
    + split; [intros _; left | eauto].
    + rewrite IH. split; [intros H; by right |].
      intros H. apply elem_of_cons in H as [?|?]; [congruence | done].
Qed.

Lemma obj_get_delete_eq {V} k (o : list (string * V)) :
  obj_get k (obj_delete k o) = None.
Proof.
  induction o as [|[k' v] o IH]; simpl; [done |].
  destruct (decide (k = k')) as [->|Hne]; [done |].
  simpl. by rewrite decide_False.
Qed.

Lemma obj_keys_delete {V} k k' (o : list (string * V)) :
  k' ∈ obj_keys (obj_delete k o) → k' ∈ obj_keys o.
Proof.
  induction o as [|[k0 v] o IH]; simpl; [done |].
  destruct (decide (k = k0)) as [->|Hne]; simpl.
  - intros H. right. by apply IH.
  - intros H. apply elem_of_cons in H as [->|H]; [left | right; by apply IH].
Qed.

Lemma obj_keys_set {V} k v k' (o : list (string * V)) :
  k' ∈ obj_keys (obj_set k v o) → k' = k ∨ k' ∈ obj_keys o.
Proof.
  induction o as [|[k0 v0] o IH]; simpl.
  - intros H. apply list_elem_of_singleton in H. by left.
  - destruct (decide (k = k0)) as [->|Hne]; simpl.
    + intros H. by right.
    + intros H. apply elem_of_cons in H as [->|H].
      * right. left.
      * destruct (IH H) as [?|?]; [by left | right; by right].
Qed.

Lemma token_of_inj n m : token_of n = token_of m → n = m.
Proof.
  unfold token_of. intros H. apply (inj (String.append Prefix)) in H.
  by apply (inj pretty) in H.
Qed.

Lemma token_of_prefix n : String.prefix Prefix (token_of n) = true.
Proof. unfold token_of. simpl. by destruct (pretty n). Qed.

(** ** What the moves of a round preserve *)

Lemma runs_frame top s evs s' :
  runs top s evs s' →
  _isDispatching s' = _isDispatching s ∧
  _pendingPayload s' = _pendingPayload s ∧
  (_lastID s ≤ _lastID s')%N ∧
  log s' = log s ++ evs.
Proof.
  induction 1 as [top s|top s1 evs1 s2 evs2 s3 _ IH1 _ IH2|top n s|top cb s
                 |top id s|top by_ id cb s evs s' _ _ _ _ IH
                 |top by_ id cb s evs s' e _ _ _ _ IH
                 |top by_ id cb s evs s' _ _ _ _ IH]; simpl in *.
  - by rewrite app_nil_r.
  - destruct IH1 as (E1 & E2 & E3 & E4), IH2 as (F1 & F2 & F3 & F4).
    rewrite F1, E1, F2, E2, F4, E4, app_assoc. repeat split; lia.
  - done.
  - rewrite app_nil_r. repeat split; lia.
  - by rewrite app_nil_r.
  - destruct IH as (E1 & E2 & E3 & E4).
    rewrite E1, E2, E4, <- !app_assoc. done.
  - destruct IH as (E1 & E2 & E3 & E4).
    rewrite E1, E2, E4, <- !app_assoc. done.
  - destruct IH as (E1 & E2 & E3 & E4).
    rewrite E1, E2, E4, <- !app_assoc. done.
Qed.

Lemma runs_isDispatching top s evs s' :
  runs top s evs s' → _isDispatching s' = _isDispatching s.
Proof. intros H. by apply runs_frame in H as (? & _). Qed.

Lemma runs_pendingPayload top s evs s' :
  runs top s evs s' → _pendingPayload s' = _pendingPayload s.
Proof. intros H. by apply runs_frame in H as (_ & ? & _). Qed.

Lemma runs_log top s evs s' : runs top s evs s' → log s' = log s ++ evs.
Proof. intros H. by apply runs_frame in H as (_ & _ & _ & ?). Qed.

Lemma truthy_insert_true m k k' :
  truthy (<[k := true]> m) k' = if decide (k = k') then true else truthy m k'.
Proof. unfold truthy. rewrite lookup_insert. by case_decide. Qed.

Lemma truthy_insert_mono m k k' :
  truthy m k' = true → truthy (<[k := true]> m) k' = true.
Proof. rewrite truthy_insert_true. by case_decide. Qed.

(** No flag goes back: within a round a pending flag stays set, and so does
    a handled flag. *)
Lemma runs_mono top s evs s' :
  runs top s evs s' →
  (∀ k, truthy (_isPending s) k = true → truthy (_isPending s') k = true) ∧
  (∀ k, truthy (_isHandled s) k = true → truthy (_isHandled s') k = true).
Proof.
  induction 1 as [top s|top s1 evs1 s2 evs2 s3 _ IH1 _ IH2|top n s|top cb s
                 |top id s|top by_ id cb s evs s' _ _ _ _ IH
                 |top by_ id cb s evs s' e _ _ _ _ IH
                 |top by_ id cb s evs s' _ _ _ _ IH]; simpl in *;
    try done.
  - destruct IH1, IH2. split; auto.
  - destruct IH as [IHp IHh]. split; intros k Hk.
    + by apply IHp, truthy_insert_mono.
    + by apply truthy_insert_mono, IHh.
  - destruct IH as [IHp IHh]. split; intros k Hk.
    + by apply IHp, truthy_insert_mono.
    + by apply IHh.
  - destruct IH as [IHp IHh]. split; intros k Hk.
    + by apply IHp, truthy_insert_mono.
    + by apply IHh.
Qed.

Lemma called_app (evs1 evs2 : list event) :
  called (evs1 ++ evs2) = called evs1 ++ called evs2.
Proof.
  induction evs1 as [|[]]; simpl; [done|by f_equal|done..].
Qed.

Lemma called_by_dispatch_app (evs1 evs2 : list event) :
  called_by_dispatch (evs1 ++ evs2)
  = called_by_dispatch evs1 ++ called_by_dispatch evs2.
Proof.
  induction evs1 as [|[[]| | |]]; simpl; [done|by f_equal|done..].
Qed.

Lemma called_by_dispatch_nil (evs : list event) :
  Forall (λ e, is_by_dispatch e = false) evs → called_by_dispatch evs = [].
Proof.
  induction 1 as [|[[]| | |] evs H _ IH]; simpl in *; done.
Qed.

(** A callback body never enters a callback [ByDispatch]: rounds do not
    nest. *)
Lemma runs_by_waitFor top s evs s' :
  runs top s evs s' → top = false →
  Forall (λ e, is_by_dispatch e = false) evs.
Proof.
  induction 1 as [top s|top s1 evs1 s2 evs2 s3 _ IH1 _ IH2|top n s|top cb s
                 |top id s|top by_ id cb s evs s' Hby _ _ _ IH
                 |top by_ id cb s evs s' e Hby _ _ _ IH
                 |top by_ id cb s evs s' Hby _ _ _ IH]; intros ->;
    try (by repeat constructor).
  - apply Forall_app; auto.
  - destruct by_; [by specialize (Hby eq_refl) |].
    constructor; [done |]. apply Forall_app. split; [auto | by constructor].
  - destruct by_; [by specialize (Hby eq_refl) |].
    constructor; [done |]. apply Forall_app. split; [auto | by constructor].
  - destruct by_; [by specialize (Hby eq_refl) |].
    constructor; [done | auto].
Qed.

(** Every callback is entered with the payload of the round. *)
Lemma runs_args top s evs s' :
  runs top s evs s' →
  ∀ by_ id arg, Called by_ id arg ∈ evs → arg = _pendingPayload s.
Proof.
  induction 1 as [top s|top s1 evs1 s2 evs2 s3 H1 IH1 _ IH2|top n s|top cb s
                 |top id s|top by_ id cb s evs s' _ _ _ _ IH
                 |top by_ id cb s evs s' e _ _ _ _ IH
                 |top by_ id cb s evs s' _ _ _ _ IH];
    intros by' id' arg' Hin; simpl in *.
  - by apply elem_of_nil in Hin.
  - apply elem_of_app in Hin as [Hin|Hin]; [eauto |].
    rewrite <- (runs_pendingPayload _ _ _ _ H1). eauto.
  - apply list_elem_of_singleton in Hin. done.
  - by apply elem_of_nil in Hin.
  - by apply elem_of_nil in Hin.
  - apply elem_of_cons in Hin as [[= _ _ ->]|Hin]; [done |].
    apply elem_of_app in Hin as [Hin|Hin]; [by eapply IH |].
    by apply list_elem_of_singleton in Hin.
  - apply elem_of_cons in Hin as [[= _ _ ->]|Hin]; [done |].
    apply elem_of_app in Hin as [Hin|Hin]; [by eapply IH |].
    by apply list_elem_of_singleton in Hin.
  - apply elem_of_cons in Hin as [[= _ _ ->]|Hin]; [done |].
    by eapply IH.
Qed.

(** A callback is entered only while its id is not pending, and leaves the
    id pending: no id is entered twice. *)
(** The id just entered is pending for the whole of its callback, so the
    callback cannot enter it again. *)
Local Ltac entered_once id P M :=
  let Hnin := fresh "Hnin" in
  assert (id ∉ called _) as Hnin
    by (let Hin := fresh in
        intros Hin; apply P in Hin as [Hin _];
        rewrite truthy_insert_true, decide_True in Hin; done);
  split; [by apply NoDup_cons |];
  let id' := fresh "id'" in
  let Hin := fresh "Hin" in
  let E := fresh "E" in
  intros id' Hin; apply elem_of_cons in Hin as [->|Hin];
  [ split; [done |]; apply M; by rewrite truthy_insert_true, decide_True
  | apply P in Hin as [E ?]; split; [|done];
    rewrite truthy_insert_true in E; by case_decide ].

Lemma runs_called_once top s evs s' :
  runs top s evs s' →
  NoDup (called evs) ∧
  ∀ id, id ∈ called evs →
        truthy (_isPending s) id = false ∧ truthy (_isPending s') id = true.
Proof.
  induction 1 as [top s|top s1 evs1 s2 evs2 s3 H1 IH1 H2 IH2|top n s|top cb s
                 |top id s|top by_ id cb s evs s' _ Hp _ H IH
                 |top by_ id cb s evs s' e _ Hp _ H IH
                 |top by_ id cb s evs s' _ Hp _ H IH]; simpl in *;
    try (split; [constructor | intros ? Hin; by apply elem_of_nil in Hin]).
  - destruct IH1 as [N1 P1], IH2 as [N2 P2].
    destruct (runs_mono _ _ _ _ H1) as [M1 _].
    destruct (runs_mono _ _ _ _ H2) as [M2 _].
    rewrite called_app. split.
    + apply NoDup_app. split_and!; [done | | done].
      intros id Hin1 Hin2. apply P1 in Hin1 as [_ E1].
      apply P2 in Hin2 as [E2 _]. congruence.
    + intros id Hin. apply elem_of_app in Hin as [Hin|Hin].
      * apply P1 in Hin as [? ?]. auto.
      * apply P2 in Hin as [E2 ?]. split; [|done].
        destruct (truthy (_isPending s1) id) eqn:E; [|done].
        apply M1 in E. congruence.
  - destruct IH as [N P]. destruct (runs_mono _ _ _ _ H) as [M _].
    rewrite called_app, app_nil_r. simpl in *. entered_once id P M.
  - destruct IH as [N P]. destruct (runs_mono _ _ _ _ H) as [M _].
    rewrite called_app, app_nil_r. simpl in *. entered_once id P M.
  - destruct IH as [N P]. destruct (runs_mono _ _ _ _ H) as [M _].
    simpl in *. entered_once id P M.
Qed.

Lemma app_cons_split {A} (l1 l2 pre post : list A) x :
  l1 ++ l2 = pre ++ x :: post →
  (∃ post1, l1 = pre ++ x :: post1 ∧ post = post1 ++ l2) ∨
  (∃ pre2, pre = l1 ++ pre2 ∧ l2 = pre2 ++ x :: post).
Proof.
  revert pre. induction l1 as [|a l1 IH]; intros pre; simpl.
  - intros ->. right. by exists pre.
  - destruct pre as [|b pre]; simpl.
    + intros [= -> <-]. left. by exists l1.
    + intros [= -> H]. apply IH in H as [[post1 [-> ->]]|[pre2 [-> ->]]].
      * left. by exists post1.
      * right. by exists pre2.
Qed.

(** An id is flagged handled only after its callback was entered. *)
Lemma runs_handled_after_called top s evs s' :
  runs top s evs s' →
  ∀ l1 id l2, evs = l1 ++ Handled id :: l2 → id ∈ called l1.
Proof.
  induction 1 as [top s|top s1 evs1 s2 evs2 s3 _ IH1 _ IH2|top n s|top cb s
                 |top id s|top by_ id cb s evs s' _ _ _ _ IH
                 |top by_ id cb s evs s' e _ _ _ _ IH
                 |top by_ id cb s evs s' _ _ _ _ IH];
    intros l1 id' l2 E.
  - by destruct l1.
  - apply app_cons_split in E as [[post1 [-> ->]]|[pre2 [-> ->]]].
    + by eapply IH1.
    + rewrite called_app. apply elem_of_app. right. by eapply IH2.
  - by destruct l1 as [|? [|]].
  - by destruct l1.
  - by destruct l1.
  - destruct l1 as [|x l1]; [done |]. injection E as <- E. simpl.
    apply app_cons_split in E as [[post1 [-> ->]]|[pre2 [-> E]]].
    + right. by eapply IH.
    + destruct pre2 as [|? [|]]; [|done..]. injection E as <- _. left.
  - destruct l1 as [|x l1]; [done |]. injection E as <- E. simpl.
    apply app_cons_split in E as [[post1 [-> ->]]|[pre2 [-> E]]].
    + right. by eapply IH.
    + by destruct pre2 as [|? [|]].
  - destruct l1 as [|x l1]; [done |]. injection E as <- E. simpl.
    right. by eapply IH.
Qed.

Lemma runs_flags_ok top s evs s' :
  runs top s evs s' → flags_ok s → flags_ok s'.
Proof.
  induction 1 as [top s|top s1 evs1 s2 evs2 s3 _ IH1 _ IH2|top n s|top cb s
                 |top id s|top by_ id cb s evs s' _ _ _ H IH
                 |top by_ id cb s evs s' e _ _ _ H IH
                 |top by_ id cb s evs s' _ _ _ H IH];
    intros Hok; auto.
  - destruct (runs_mono _ _ _ _ H) as [M _].
    assert (flags_ok s') as Hok'.
    { apply IH. intros k Hk. simpl. by apply truthy_insert_mono, Hok. }
    intros k. simpl. rewrite truthy_insert_true. case_decide as E.
    + subst k. intros _. apply M. simpl.
      by rewrite truthy_insert_true, decide_True.
    + apply Hok'.
  - assert (flags_ok s') as Hok'; [|done].
    apply IH. intros k Hk. simpl. by apply truthy_insert_mono, Hok.
  - apply IH. intros k Hk. simpl. by apply truthy_insert_mono, Hok.
Qed.

Lemma wf_alt s :
  wf s ↔
  (∀ k, k ∈ obj_keys (_payloadables s) → String.prefix Prefix k = true) ∧
  (∀ k, truthy (_isPending s) k = true → String.prefix Prefix k = true).
Proof.
  unfold wf. rewrite !forallb_forall. split; intros [H1 H2]; split.
  - intros k Hk. by apply H1, list_elem_of_In.
  - intros k Hk. unfold truthy in Hk.
    destruct (_isPending s !! k) as [[]|] eqn:E; try done.
    apply elem_of_map_to_list, list_elem_of_In, H2 in E. done.
  - intros k Hk. by apply H1, list_elem_of_In.
  - intros [k b] Hin. apply list_elem_of_In, elem_of_map_to_list in Hin.
    destruct b; [|done]. simpl. apply H2. unfold truthy. by rewrite Hin.
Qed.

Lemma wf_init : wf init.
Proof. apply wf_alt. split; intros k Hk; [by apply elem_of_nil in Hk | done]. Qed.

Lemma wf_register cb s : wf s → wf (register cb s).2.
Proof.
  rewrite !wf_alt. intros [H1 H2]. split; [|done]. simpl.
  intros k Hk. apply obj_keys_set in Hk as [->|Hk]; [|by apply H1].
  apply token_of_prefix.
Qed.

Lemma wf_unregister id s : wf s → wf (unregister id s).2.
Proof.
  rewrite !wf_alt. intros [H1 H2]. unfold unregister.
  destruct (obj_has id (_payloadables s)); simpl; [|done].
  split; [|done]. intros k Hk. eapply H1, obj_keys_delete, Hk.
Qed.

Lemma wf_enter by_ id cb s :
  obj_get id (_payloadables s) = Some cb → wf s →
  wf (emit (Called by_ id (_pendingPayload s))
           (with_isPending (<[id := true]> (_isPending s)) s)).
Proof.
  intros Hcb. rewrite !wf_alt. intros [H1 H2].
  split; [done |]. simpl. intros k. rewrite truthy_insert_true.
  case_decide as E; [|by apply H2].
  subst k. intros _. apply H1, obj_get_keys. by rewrite Hcb.
Qed.

Lemma runs_wf top s evs s' : runs top s evs s' → wf s → wf s'.
Proof.
  induction 1 as [top s|top s1 evs1 s2 evs2 s3 _ IH1 _ IH2|top n s|top cb s
                 |top id s|top by_ id cb s evs s' _ _ Hcb H IH
                 |top by_ id cb s evs s' e _ _ Hcb H IH
                 |top by_ id cb s evs s' _ _ Hcb H IH];
    intros Hwf; auto.
  - by apply wf_register.
  - revert Hwf. rewrite !wf_alt. intros [H1 H2]. split; [|done].
    intros k Hk. eapply H1, obj_keys_delete, Hk.
  - by apply (IH (wf_enter _ _ _ _ Hcb Hwf)).
  - by apply (IH (wf_enter _ _ _ _ Hcb Hwf)).
  - by apply (IH (wf_enter _ _ _ _ Hcb Hwf)).
Qed.

(** ** Starting and stopping a round *)

Lemma reset_flags_spec ks s :
  let s' := foldl (λ s id,
              let s := with_isPending (<[id := false]> (_isPending s)) s in
              with_isHandled (<[id := false]> (_isHandled s)) s) s ks in
  _payloadables s' = _payloadables s ∧
  _isDispatching s' = _isDispatching s ∧
  _lastID s' = _lastID s ∧
  _pendingPayload s' = _pendingPayload s ∧
  log s' = log s ∧
  (∀ k, _isPending s' !! k
        = if decide (k ∈ ks) then Some false else _isPending s !! k) ∧
  (∀ k, _isHandled s' !! k
        = if decide (k ∈ ks) then Some false else _isHandled s !! k).
Proof.
  revert s. induction ks as [|k0 ks IH]; intros s; simpl.
  { split_and!; try done; intros k; by rewrite decide_False by apply not_elem_of_nil. }
  destruct (IH (with_isHandled (<[k0 := false]> (_isHandled s))
                  (with_isPending (<[k0 := false]> (_isPending s)) s)))
    as (E1 & E2 & E3 & E4 & E5 & E6 & E7).
  simpl in *. split_and!; try done; intros k.
  - rewrite E6. destruct (decide (k ∈ ks)) as [Hin|Hnin].
    + rewrite decide_True; [done | by right].
    + rewrite lookup_insert. destruct (decide (k0 = k)) as [->|Hne].
      * rewrite decide_True; [done | by left].
      * rewrite decide_False; [done |].
        intros [?|?]%elem_of_cons; congruence.
  - rewrite E7. destruct (decide (k ∈ ks)) as [Hin|Hnin].
    + rewrite decide_True; [done | by right].
    + rewrite lookup_insert. destruct (decide (k0 = k)) as [->|Hne].
      * rewrite decide_True; [done | by left].
      * rewrite decide_False; [done |].
        intros [?|?]%elem_of_cons; congruence.
Qed.

Lemma _startDispatching_spec pl s :
  let s' := _startDispatching pl s in
  _payloadables s' = _payloadables s ∧
  _isDispatching s' = true ∧
  _lastID s' = _lastID s ∧
  _pendingPayload s' = Some pl ∧
  log s' = log s ∧
  (∀ k, _isPending s' !! k
        = if decide (k ∈ obj_keys (_payloadables s)) then Some false
          else _isPending s !! k) ∧
  (∀ k, _isHandled s' !! k
        = if decide (k ∈ obj_keys (_payloadables s)) then Some false
          else _isHandled s !! k).
Proof.
  unfold _startDispatching. simpl.
  destruct (reset_flags_spec (obj_keys (_payloadables s)) s)
    as (E1 & E2 & E3 & E4 & E5 & E6 & E7).
  by split_and!.
Qed.

Lemma _startDispatching_wf pl s : wf s → wf (_startDispatching pl s).
Proof.
  destruct (_startDispatching_spec pl s) as (E1 & _ & _ & _ & _ & E6 & _).
  rewrite !wf_alt. intros [H1 H2]. rewrite E1. split; [done |].
  intros k. unfold truthy. rewrite E6. case_decide; [done |]. apply H2.
Qed.

Lemma _startDispatching_flags_ok pl s :
  flags_ok s → flags_ok (_startDispatching pl s).
Proof.
  destruct (_startDispatching_spec pl s) as (_ & _ & _ & _ & _ & E6 & E7).
  intros Hok k. unfold truthy. rewrite E6, E7. case_decide; [done |].
  apply Hok.
Qed.

(** ** Every execution inside a round is a sequence of moves *)

Section Sound.
Variable call : prog → state → outcome * state.
Hypothesis call_runs : ∀ p s r s',
  _isDispatching s = true → call p s = (r, s') → ∃ evs, runs false s evs s'.

Lemma _invokePayloadable_runs top by_ id s r s' :
  (by_ = ByDispatch → top = true) →
  _isDispatching s = true →
  truthy (_isPending s) id = false →
  obj_has id (_payloadables s) = true →
  _invokePayloadable call by_ id s = (r, s') →
  ∃ evs, runs top s evs s'.
Proof.
  intros Htop Hd Hp Hreg. apply obj_has_true in Hreg as [cb Hcb].
  unfold _invokePayloadable. simpl. rewrite Hcb.
  destruct (call _ _) as [[|e|] s1] eqn:Hc;
    apply call_runs in Hc as [evs Hevs]; try done;
    intros [= <- <-]; eexists.
  - eapply runs_invoke_handled; eauto.
  - eapply runs_invoke_raised; eauto.
  - eapply runs_invoke_cut; eauto.
Qed.

Lemma waitFor_loop_runs ids s r s' :
  _isDispatching s = true →
  waitFor_loop call ids s = (r, s') →
  ∃ evs, runs false s evs s'.
Proof.
  revert s. induction ids as [|id ids IH]; intros s Hd; simpl.
  { intros [= <- <-]. eexists. apply runs_refl. }
  destruct (truthy (_isPending s) id) eqn:Hp.
  - destruct (truthy (_isHandled s) id); simpl; [by apply IH |].
    intros [= <- <-]. eexists. apply runs_refl.
  - destruct (obj_has id (_payloadables s)) eqn:Hreg; simpl.
    2:{ intros [= <- <-]. eexists. apply runs_refl. }
    destruct (_invokePayloadable call ByWaitFor id s) as [o s1] eqn:Hi.
    eapply (_invokePayloadable_runs false) in Hi as [evs1 H1];
      [|done..].
    destruct o as [|e|]; [|intros [= <- <-]; eauto..].
    intros H2. apply IH in H2 as [evs2 H2].
    + eexists. eapply runs_trans; eauto.
    + by rewrite (runs_isDispatching _ _ _ _ H1).
Qed.

Lemma waitFor_runs args s r s' :
  _isDispatching s = true →
  waitFor call args s = (r, s') →
  ∃ evs, runs false s evs s'.
Proof.
  intros Hd. unfold waitFor. rewrite Hd. simpl.
  by apply waitFor_loop_runs.
Qed.

Lemma dispatch_rejected pl s :
  _isDispatching s = true → dispatch call pl s = (Throw ReentrantDispatch, s).
Proof. intros Hd. unfold dispatch. by rewrite Hd. Qed.

Lemma exec_body_runs p s r s' :
  _isDispatching s = true →
  exec_body call p s = (r, s') →
  ∃ evs, runs false s evs s'.
Proof.
  revert s r s'.
  induction p as [|p IHp q IHq|n|b IHb h IHh|n|cb|id|args|pl|p IHp q IHq];
    intros s r s' Hd; simpl.
  - intros [= <- <-]. eexists. apply runs_refl.
  - destruct (exec_body call p s) as [o s1] eqn:Hp.
    apply IHp in Hp as [evs1 H1]; [|done].
    destruct o as [|e|]; [|intros [= <- <-]; eauto..].
    intros H2. apply IHq in H2 as [evs2 H2].
    + eexists. eapply runs_trans; eauto.
    + by rewrite (runs_isDispatching _ _ _ _ H1).
  - intros [= <- <-]. eexists. apply runs_refl.
  - destruct (exec_body call b s) as [o s1] eqn:Hb.
    apply IHb in Hb as [evs1 H1]; [|done].
    destruct o as [|e|]; [intros [= <- <-]; eauto| |intros [= <- <-]; eauto].
    intros H2. apply IHh in H2 as [evs2 H2].
    + eexists. eapply runs_trans; eauto.
    + by rewrite (runs_isDispatching _ _ _ _ H1).
  - intros [= <- <-]. eexists. apply runs_mark.
  - intros [= <- <-]. eexists. apply runs_register.
  - unfold unregister.
    destruct (obj_has id (_payloadables s)); simpl; intros [= <- <-];
      eexists; [apply runs_delete | apply runs_refl].
  - by apply waitFor_runs.
  - rewrite dispatch_rejected by done.
    intros [= <- <-]. eexists. apply runs_refl.
  - unfold isDispatching. rewrite Hd. by apply IHp.
Qed.

Lemma dispatch_loop_runs ids s r s' :
  _isDispatching s = true →
  dispatch_loop call ids s = (r, s') →
  ∃ evs, runs true s evs s'.
Proof.
  revert s. induction ids as [|id ids IH]; intros s Hd; simpl.
  { intros [= <- <-]. eexists. apply runs_refl. }
  destruct (obj_has id (_payloadables s)) eqn:Hreg; simpl; [|by apply IH].
  destruct (truthy (_isPending s) id) eqn:Hp; [by apply IH |].
  destruct (_invokePayloadable call ByDispatch id s) as [o s1] eqn:Hi.
  eapply (_invokePayloadable_runs true) in Hi as [evs1 H1]; [|done..].
  destruct o as [|e|]; [|intros [= <- <-]; eauto..].
  intros H2. apply IH in H2 as [evs2 H2].
  - eexists. eapply runs_trans; eauto.
  - by rewrite (runs_isDispatching _ _ _ _ H1).
Qed.

Lemma _invokePayloadable_shape by_ id cb s r s' :
  _isDispatching s = true →
  obj_get id (_payloadables s) = Some cb →
  _invokePayloadable call by_ id s = (r, s') →
  let s0 := emit (Called by_ id (_pendingPayload s))
                 (with_isPending (<[id := true]> (_isPending s)) s) in
  ∃ evs s1,
    call (cb (_pendingPayload s)) s0 = (r, s1) ∧
    runs false s0 evs s1 ∧
    s' = match r with
         | Normal =>
             emit (Handled id)
                  (with_isHandled (<[id := true]> (_isHandled s1)) s1)
         | Throw e => emit (Raised by_ id e) s1
         | OutOfFuel => s1
         end.
Proof.
  intros Hd Hcb. unfold _invokePayloadable. simpl. rewrite Hcb.
  destruct (call _ _) as [o s1] eqn:Hc. intros H.
  pose proof Hc as Hc'. apply call_runs in Hc' as [evs Hevs]; [|done].
  exists evs, s1. by destruct o; injection H as <- <-.
Qed.

(** The log of the loop of [dispatch]: what it enters itself is entered
    in the order of the keys, and the error of a callback it entered is
    the last thing that happens. *)
Lemma dispatch_loop_trace ids s r s' :
  _isDispatching s = true →
  dispatch_loop call ids s = (r, s') →
  ∃ body tail,
    log s' = log s ++ body ++ tail ∧
    called_by_dispatch body `sublist_of` ids ∧
    Forall (λ e, is_raised_by_dispatch e = false) body ∧
    match r with
    | Throw e => ∃ id, tail = [Raised ByDispatch id e]
    | _ => tail = []
    end.
Proof.
  revert s. induction ids as [|id ids IH]; intros s Hd; simpl.
  { intros [= <- <-]. exists [], []. rewrite app_nil_r. by split_and!. }
  assert (∀ s, _isDispatching s = true →
               dispatch_loop call ids s = (r, s') →
    ∃ body tail, log s' = log s ++ body ++ tail ∧
      called_by_dispatch body `sublist_of` id :: ids ∧
      Forall (λ e, is_raised_by_dispatch e = false) body ∧
      match r with
      | Throw e => ∃ id, tail = [Raised ByDispatch id e]
      | _ => tail = []
      end) as IH'.
  { intros s2 Hd2 H2. destruct (IH _ Hd2 H2) as (b & t & ? & ? & ? & ?).
    exists b, t. split_and!; try done. by apply sublist_cons. }
  destruct (obj_has id (_payloadables s)) eqn:Hreg; simpl; [|by apply IH'].
  destruct (truthy (_isPending s) id) eqn:Hp; [by apply IH' |].
  apply obj_has_true in Hreg as [cb Hcb].
  destruct (_invokePayloadable call ByDispatch id s) as [o s1] eqn:Hi.
  apply (_invokePayloadable_shape _ _ cb) in Hi
    as (evs & s2 & _ & Hruns & ->); [|done..].
  pose proof (runs_by_waitFor _ _ _ _ Hruns eq_refl) as Hw.
  pose proof (called_by_dispatch_nil _ Hw) as Hnil.
  assert (Forall (λ e, is_raised_by_dispatch e = false) evs) as Hw'.
  { eapply Forall_impl; [exact Hw |]. by intros [[]| |[]|]. }
  pose proof (runs_log _ _ _ _ Hruns) as Hlog. simpl in Hlog.
  pose proof (runs_isDispatching _ _ _ _ Hruns) as Hd2. simpl in Hd2.
  rewrite Hd in Hd2.
  destruct o as [|e|].
  - intros H2. apply IH in H2 as (b & t & E & Hsub & Hb & Ht); [|done].
    exists (Called ByDispatch id (_pendingPayload s)
              :: evs ++ [Handled id] ++ b), t.
    split_and!; [| | |done].
    + rewrite E. simpl. rewrite Hlog. by rewrite <- !app_assoc.
    + simpl. rewrite !called_by_dispatch_app, Hnil. simpl.
      by apply sublist_skip.
    + constructor; [done |]. apply Forall_app. split; [done |].
      by constructor.
  - intros [= <- <-].
    exists (Called ByDispatch id (_pendingPayload s) :: evs),
           [Raised ByDispatch id e].
    split_and!; [| | |by eexists].
    + simpl. rewrite Hlog. by rewrite <- !app_assoc.
    + simpl. rewrite Hnil. apply sublist_skip, sublist_nil_l.
    + by constructor.
  - intros [= <- <-].
    exists (Called ByDispatch id (_pendingPayload s) :: evs), [].
    split_and!; [| | |done].
    + rewrite Hlog. by rewrite <- !app_assoc, app_nil_r.
    + simpl. rewrite Hnil. apply sublist_skip, sublist_nil_l.
    + by constructor.
Qed.
End Sound.

(** ** A round nests no deeper than its budget *)

Lemma weight_insert_le arg m id (o : list (string * callback)) :
  weight arg (<[id := true]> m) o ≤ weight arg m o.
Proof.
  induction o as [|[k c] o IH]; simpl; [done |].
  rewrite truthy_insert_true. case_decide; destruct (truthy m k); lia.
Qed.

Lemma weight_insert_pending arg m id cb (o : list (string * callback)) :
  truthy m id = false → obj_get id o = Some cb →
  weight arg (<[id := true]> m) o + S (regs arg (cb arg)) ≤ weight arg m o.
Proof.
  intros Hp. induction o as [|[k c] o IH]; simpl; [done |].
  destruct (decide (id = k)) as [->|Hne].
  - intros [= ->]. rewrite truthy_insert_true, decide_True, Hp by done.
    pose proof (weight_insert_le arg m k o). lia.
  - intros Hcb. rewrite truthy_insert_true, decide_False by done.
    specialize (IH Hcb). lia.
Qed.

Lemma weight_set arg m k cb (o : list (string * callback)) :
  weight arg m (obj_set k cb o) ≤ weight arg m o + S (regs arg (cb arg)).
Proof.
  induction o as [|[k' c] o IH]; simpl.
  - destruct (truthy m k); lia.
  - destruct (decide (k = k')) as [->|Hne]; simpl.
    + destruct (truthy m k'); lia.
    + lia.
Qed.

Lemma weight_delete arg m k (o : list (string * callback)) :
  weight arg m (obj_delete k o) ≤ weight arg m o.
Proof.
  induction o as [|[k' c] o IH]; simpl; [done |].
  destruct (decide (k = k')) as [->|Hne]; simpl; lia.
Qed.

Lemma weight_empty arg m (o : list (string * callback)) :
  weight arg m o ≤ weight arg ∅ o.
Proof.
  induction o as [|[k c] o IH]; simpl; [done |].
  destruct (truthy m k); unfold truthy at 1; rewrite lookup_empty; simpl; lia.
Qed.

Section Total.
Variable call : prog → state → outcome * state.
Variable n : nat.
Hypothesis call_runs : ∀ p s r s',
  _isDispatching s = true → call p s = (r, s') → ∃ evs, runs false s evs s'.
Hypothesis call_fits : ∀ p s r s',
  _isDispatching s = true →
  regs (_pendingPayload s) p + budget s < n →
  call p s = (r, s') →
  r ≠ OutOfFuel ∧ budget s' ≤ regs (_pendingPayload s) p + budget s.

Lemma _invokePayloadable_fits by_ id s r s' :
  _isDispatching s = true → budget s ≤ n →
  truthy (_isPending s) id = false →
  obj_has id (_payloadables s) = true →
  _invokePayloadable call by_ id s = (r, s') →
  r ≠ OutOfFuel ∧ budget s' ≤ budget s.
Proof.
  intros Hd Hn Hp Hreg Hi. apply obj_has_true in Hreg as [cb Hcb].
  pose proof (weight_insert_pending (_pendingPayload s) _ _ _ _ Hp Hcb) as Hw.
  apply (_invokePayloadable_shape _ call_runs _ _ cb) in Hi
    as (evs & s1 & Hc & Hruns & ->); [|done..].
  apply call_fits in Hc as [Hr Hb]; [|done|unfold budget in *; simpl; lia].
  unfold budget in *. simpl in *.
  split; [done |]. destruct r; simpl; lia.
Qed.

Lemma waitFor_loop_fits ids s r s' :
  _isDispatching s = true → budget s ≤ n →
  waitFor_loop call ids s = (r, s') →
  r ≠ OutOfFuel ∧ budget s' ≤ budget s.
Proof.
  revert s. induction ids as [|id ids IH]; intros s Hd Hn; simpl.
  { by intros [= <- <-]. }
  destruct (truthy (_isPending s) id) eqn:Hp.
  - destruct (truthy (_isHandled s) id); simpl; [by apply IH |].
    by intros [= <- <-].
  - destruct (obj_has id (_payloadables s)) eqn:Hreg; simpl.
    2:{ by intros [= <- <-]. }
    destruct (_invokePayloadable call ByWaitFor id s) as [o s1] eqn:Hi.
    pose proof Hi as Hi'.
    eapply (_invokePayloadable_runs _ call_runs false) in Hi' as [evs1 H1];
      [|done..].
    apply _invokePayloadable_fits in Hi as [Ho Hb]; [|done..].
    destruct o as [|e|]; [|by intros [= <- <-]..].
    intros H2. apply IH in H2 as [? ?]; [split; [done | lia] | | lia].
    by rewrite (runs_isDispatching _ _ _ _ H1).
Qed.

Lemma dispatch_loop_fits ids s r s' :
  _isDispatching s = true → budget s ≤ n →
  dispatch_loop call ids s = (r, s') →
  r ≠ OutOfFuel.
Proof.
  revert s. induction ids as [|id ids IH]; intros s Hd Hn; simpl.
  { by intros [= <- <-]. }
  destruct (obj_has id (_payloadables s)) eqn:Hreg; simpl; [|by apply IH].
  destruct (truthy (_isPending s) id) eqn:Hp; [by apply IH |].
  destruct (_invokePayloadable call ByDispatch id s) as [o s1] eqn:Hi.
  pose proof Hi as Hi'.
  eapply (_invokePayloadable_runs _ call_runs true) in Hi' as [evs1 H1];
    [|done..].
  apply _invokePayloadable_fits in Hi as [Ho Hb]; [|done..].
  destruct o as [|e|]; [|by intros [= <- <-]..].
  apply IH; [|lia]. by rewrite (runs_isDispatching _ _ _ _ H1).
Qed.

Lemma exec_body_fits p s r s' :
  _isDispatching s = true →
  regs (_pendingPayload s) p + budget s ≤ n →
  exec_body call p s = (r, s') →
  r ≠ OutOfFuel ∧ budget s' ≤ regs (_pendingPayload s) p + budget s.
Proof.
  revert s r s'.
  induction p as [|p IHp q IHq|k|b IHb h IHh|k|cb|id|args|pl|p IHp q IHq];
    intros s r s' Hd Hn; simpl in *.
  - by intros [= <- <-].
  - destruct (exec_body call p s) as [o s1] eqn:Hp. pose proof Hp as Hp'.
    apply (exec_body_runs _ call_runs) in Hp' as [evs1 H1]; [|done].
    apply IHp in Hp as [Ho Hb]; [|done|lia].
    destruct o as [|e|]; [|intros [= <- <-]; split; [done | lia]..].
    intros H2. apply IHq in H2 as [? ?].
    + rewrite (runs_pendingPayload _ _ _ _ H1) in *. split; [done | lia].
    + by rewrite (runs_isDispatching _ _ _ _ H1).
    + rewrite (runs_pendingPayload _ _ _ _ H1). lia.
  - by intros [= <- <-].
  - destruct (exec_body call b s) as [o s1] eqn:Hb. pose proof Hb as Hb'.
    apply (exec_body_runs _ call_runs) in Hb' as [evs1 H1]; [|done].
    apply IHb in Hb as [Ho Hw]; [|done|lia].
    destruct o as [|e|]; [intros [= <- <-]; split; [done | lia]| |done].
    intros H2. apply IHh in H2 as [? ?].
    + rewrite (runs_pendingPayload _ _ _ _ H1) in *. split; [done | lia].
    + by rewrite (runs_isDispatching _ _ _ _ H1).
    + rewrite (runs_pendingPayload _ _ _ _ H1). lia.
  - by intros [= <- <-].
  - intros [= <- <-]. split; [done |]. unfold budget. simpl.
    pose proof (weight_set (_pendingPayload s) (_isPending s)
                  (token_of (_lastID s)) cb (_payloadables s)). lia.
  - unfold unregister.
    destruct (obj_has id (_payloadables s)); simpl; intros [= <- <-];
      (split; [done |]); [|done]. unfold budget. simpl.
    apply weight_delete.
  - unfold waitFor. rewrite Hd. simpl. by apply waitFor_loop_fits.
  - rewrite dispatch_rejected by done. by intros [= <- <-].
  - unfold isDispatching. rewrite Hd. intros H.
    apply IHp in H as [? ?]; [split; [done | lia] | done | lia].
Qed.
End Total.

Lemma exec_runs fuel p s r s' :
  _isDispatching s = true →
  exec fuel p s = (r, s') →
  ∃ evs, runs false s evs s'.
Proof.
  revert p s r s'. induction fuel as [|fuel IH]; intros p s r s' Hd; simpl.
  - intros [= <- <-]. eexists. apply runs_refl.
  - by apply exec_body_runs.
Qed.

Lemma exec_fits fuel p s r s' :
  _isDispatching s = true →
  regs (_pendingPayload s) p + budget s ≤ fuel →
  exec (S fuel) p s = (r, s') →
  r ≠ OutOfFuel ∧ budget s' ≤ regs (_pendingPayload s) p + budget s.
Proof.
  revert p s r s'. induction fuel as [|fuel IH]; intros p s r s' Hd Hn.
  - apply (exec_body_fits _ 0); [apply (exec_runs 0) | | done..].
    intros. lia.
  - apply (exec_body_fits _ (S fuel)); [apply (exec_runs (S fuel)) | | done..].
    intros p0 s0 r0 s0' Hd0 Hn0. apply IH; [done | lia].
Qed.

(** [run_dispatch] always comes back with the outcome of the round: the
    fuel it hands to the callbacks is never exhausted. *)
Lemma run_dispatch_total pl s : (run_dispatch pl s).1 ≠ OutOfFuel.
Proof.
  unfold run_dispatch. set (n := weight (Some pl) ∅ (_payloadables s)).
  unfold dispatch. destruct (_isDispatching s) eqn:Hd; [done |].
  destruct (_startDispatching_spec pl s) as (E1 & E2 & _ & E4 & _).
  cbn [invariant]. cbv zeta.
  destruct (dispatch_loop _ _ _) as [r s2] eqn:Hl. cbn [fst].
  eapply (dispatch_loop_fits _ (S n)) in Hl;
    [done | apply (exec_runs (S n)) | | done |].
  - intros p0 s0 r0 s0' Hd0 Hn0. apply exec_fits; [done | lia].
  - unfold budget. rewrite E1, E4.
    pose proof (weight_empty (Some pl) (_isPending (_startDispatching pl s))
                  (_payloadables s)). lia.
Qed.

(** A round, taken apart: the moves it makes between [_startDispatching]
    and [_stopDispatching], and the shape of what the loop logs. *)
Lemma run_dispatch_round pl s r s' :
  _isDispatching s = false →
  run_dispatch pl s = (r, s') →
  ∃ s2 body tail,
    runs true (_startDispatching pl s) (body ++ tail) s2 ∧
    s' = _stopDispatching s2 ∧
    log s' = log s ++ body ++ tail ∧
    called_by_dispatch body `sublist_of` obj_keys (_payloadables s) ∧
    Forall (λ e, is_raised_by_dispatch e = false) body ∧
    match r with
    | Throw e => ∃ id, tail = [Raised ByDispatch id e]
    | _ => tail = []
    end.
Proof.
  intros Hd. unfold run_dispatch.
  set (n := weight (Some pl) ∅ (_payloadables s)).
  unfold dispatch. rewrite Hd. cbn [invariant]. cbv zeta.
  destruct (_startDispatching_spec pl s) as (E1 & E2 & _ & _ & E5 & _).
  destruct (dispatch_loop _ _ _) as [r2 s2] eqn:Hl. intros [= -> <-].
  pose proof Hl as Hl'.
  apply (dispatch_loop_runs _ (exec_runs (S n))) in Hl as [evs Hruns];
    [|done].
  apply (dispatch_loop_trace _ (exec_runs (S n))) in Hl'
    as (body & tail & Hlog & Hsub & Hbody & Htail); [|done].
  pose proof (runs_log _ _ _ _ Hruns) as Hlog'.
  rewrite Hlog in Hlog'. apply app_inv_head in Hlog'. subst evs.
  exists s2, body, tail. rewrite E1 in Hsub.
  split_and!; try done. simpl. by rewrite Hlog, E5.
Qed.

(** Every engine the public methods can produce from [init] is well
    formed and has its flags in order. *)
Lemma run_dispatch_wf pl s : wf s → wf (run_dispatch pl s).2.
Proof.
  intros Hwf. destruct (_isDispatching s) eqn:Hd.
  - unfold run_dispatch. by rewrite dispatch_rejected.
  - destruct (run_dispatch pl s) as [r s'] eqn:Hrun.
    destruct (run_dispatch_round _ _ _ _ Hd Hrun)
      as (s2 & body & tail & Hruns & -> & _).
    apply (_startDispatching_wf pl), (runs_wf _ _ _ _ Hruns), wf_alt in Hwf.
    by apply wf_alt.
Qed.

Lemma flags_ok_init : flags_ok init.
Proof. intros id. unfold truthy. simpl. by rewrite lookup_empty. Qed.

Lemma run_dispatch_flags_ok pl s : flags_ok s → flags_ok (run_dispatch pl s).2.
Proof.
  intros Hok. destruct (_isDispatching s) eqn:Hd.
  - unfold run_dispatch. by rewrite dispatch_rejected.
  - destruct (run_dispatch pl s) as [r s'] eqn:Hrun.
    destruct (run_dispatch_round _ _ _ _ Hd Hrun)
      as (s2 & body & tail & Hruns & -> & _).
    by apply (_startDispatching_flags_ok pl), (runs_flags_ok _ _ _ _ Hruns)
      in Hok.
Qed.

(** ** Registration *)

Lemma run_ops_tokens ops s :
  ∀ t, t ∈ (run_ops ops s).1 → ∃ n, t = token_of n ∧ (_lastID s ≤ n)%N.
Proof.
  revert s. induction ops as [|[cb|id] ops IH]; intros s t; simpl.
  - intros H. by apply elem_of_nil in H.
  - destruct (run_ops ops _) as [ids s1] eqn:E. simpl.
    intros [->|Hin]%elem_of_cons; [by exists (_lastID s) |].
    specialize (IH (register cb s).2 t). unfold register in IH.
    simpl in IH. rewrite E in IH.
    destruct (IH Hin) as (n & -> & Hn). simpl in Hn. exists n. split; [done | lia].
  - intros Hin. apply IH in Hin as (n & -> & Hn). exists n. split; [done |].
    unfold unregister in Hn.
    by destruct (obj_has id (_payloadables s)).
Qed.


(** C9: for every token [t] that is not in the registry -- never issued
    by this engine, or unregistered before -- [unregister(t)] fails with
    [UnknownSubscriber] and changes nothing; and whatever the first
    [unregister(t)] did, a second one right after it fails that way. *)
Theorem unregister_unknown n s :
  let t := token_of n in
  (obj_get t (_payloadables s) = None →
   unregister t s = (Throw (UnknownSubscriber t), s)) ∧
  unregister t (unregister t s).2
  = (Throw (UnknownSubscriber t), (unregister t s).2).
Proof.
  intros t.
  assert (∀ s, obj_get t (_payloadables s) = None →
               unregister t s = (Throw (UnknownSubscriber t), s)) as Hfail.
  { intros s0 Hnone. apply obj_has_false in Hnone. unfold unregister.
    by rewrite Hnone. }
  split; [apply Hfail |]. apply Hfail. unfold unregister.
  destruct (obj_has t (_payloadables s)) eqn:E; simpl.
  - apply obj_get_delete_eq.
  - by apply obj_has_false.
Qed.

(** C3: while a round is active, [dispatch] fails with [ReentrantDispatch]
    and returns the engine state it was given, field for field -- when
    called directly, and when called from the body of a callback. *)
Theorem dispatch_reentrant_rejected call pl s :
  isDispatching s = true →
  dispatch call pl s = (Throw ReentrantDispatch, s) ∧
  run_dispatch pl s = (Throw ReentrantDispatch, s) ∧
  ∀ fuel, exec (S fuel) (CallDispatch pl) s = (Throw ReentrantDispatch, s).
Proof.
  intros Hd. split_and!; [|unfold run_dispatch|intros fuel; simpl];
    by apply dispatch_rejected.
Qed.

(** ** [waitFor] *)

Lemma waitFor_single call id s :
  _isDispatching s = true →
  truthy (_isPending s) id = false →
  obj_has id (_payloadables s) = true →
  waitFor call [VObj (Some id)] s = _invokePayloadable call ByWaitFor id s.
Proof.
  intros Hd Hp Hreg. unfold waitFor. rewrite Hd. simpl.
  rewrite Hp, Hreg. simpl.
  by destruct (_invokePayloadable call ByWaitFor id s) as [[|e|] s1].
Qed.

(** C10: [waitFor] reads the [dispatchToken] property of each argument and
    looks at nothing else; called during a round with the raw token string
    of a registered subscriber that has not been invoked, it fails with
    [UnknownSubscriber] (for the key "undefined") and leaves the engine
    untouched, whereas an object carrying that token makes it invoke the
    subscriber. *)
Theorem waitFor_raw_token_unknown call t cb s :
  wf s →
  _isDispatching s = true →
  obj_get t (_payloadables s) = Some cb →
  truthy (_isPending s) t = false →
  waitFor call [VStr t] s = (Throw (UnknownSubscriber "undefined"), s) ∧
  waitFor call [VObj (Some t)] s = _invokePayloadable call ByWaitFor t s ∧
  ∀ args, waitFor call args s
          = waitFor call (map (λ v, VObj (get_dispatchToken v)) args) s.
Proof.
  intros [Hk Hp]%wf_alt Hd Hcb Hnp. split_and!.
  - unfold waitFor. rewrite Hd. simpl.
    destruct (truthy (_isPending s) "undefined") eqn:E.
    { by apply Hp in E. }
    destruct (obj_has "undefined" (_payloadables s)) eqn:E'; simpl; [|done].
    apply obj_has_true, obj_get_keys, Hk in E'. done.
  - apply waitFor_single; [done..|]. apply obj_has_true. eauto.
  - intros args. unfold waitFor. by rewrite map_map.
Qed.

(** ** Errors that nobody catches *)

Lemma unwinds_nil r : unwinds r [].
Proof. exists [], []. split_and!; [done..|]. by destruct r. Qed.

Lemma unwinds_quiet r (evs : list event) :
  Forall (λ ev, is_raised ev = false) evs → unwinds r evs.
Proof.
  intros Hq. exists evs, []. rewrite app_nil_r. split_and!; [done..|].
  by destruct r.
Qed.

Lemma unwinds_normal_quiet (evs : list event) :
  unwinds Normal evs → Forall (λ ev, is_raised ev = false) evs.
Proof. intros (q & t & -> & Hq & ->). by rewrite app_nil_r. Qed.

Lemma unwinds_app r (evs1 evs2 : list event) :
  unwinds Normal evs1 → unwinds r evs2 → unwinds r (evs1 ++ evs2).
Proof.
  intros Hq%unwinds_normal_quiet (q & t & -> & Hq2 & Ht).
  exists (evs1 ++ q), t. rewrite app_assoc. split_and!; [done| |done].
  by apply Forall_app.
Qed.

Lemma unwinds_last (r : outcome) (evs pre post : list event) by_ id e :
  unwinds r evs →
  evs = pre ++ Raised by_ id e :: post →
  r = Throw e ∧ Forall (λ ev, ∃ by' id', ev = Raised by' id' e) post.
Proof.
  intros (q & t & -> & Hq & Ht) [[post1 [-> ->]]|[pre2 [-> ->]]]%app_cons_split.
  - apply Forall_app in Hq as [_ Hq]. by inversion Hq.
  - destruct r as [|e'|]; [by destruct pre2| |by destruct pre2].
    apply Forall_app in Ht as [_ Ht].
    apply Forall_cons in Ht as [(by' & id' & [= -> -> ->]) Hpost]. done.
Qed.

Lemma registry_catch_free_set arg k cb s :
  registry_catch_free arg s → catch_free arg (cb arg) →
  registry_catch_free arg
    (with_payloadables (obj_set k cb (_payloadables s)) s).
Proof.
  unfold registry_catch_free. simpl. generalize (_payloadables s).
  intros o Ho Hcb. induction o as [|[k0 c0] o IH]; simpl.
  - intros k' cb' [= -> ->]%list_elem_of_singleton. done.
  - destruct (decide (k = k0)) as [->|Hne].
    + intros k' cb' [[= -> ->]|Hin]%elem_of_cons; [done |].
      eapply Ho. by right.
    + intros k' cb' [[= -> ->]|Hin]%elem_of_cons.
      * eapply Ho. by left.
      * eapply IH; [|done]. intros k1 cb1 Hin1. eapply Ho. by right.
Qed.

Lemma registry_catch_free_delete arg k s :
  registry_catch_free arg s →
  registry_catch_free arg
    (with_payloadables (obj_delete k (_payloadables s)) s).
Proof.
  unfold registry_catch_free. simpl. generalize (_payloadables s).
  intros o Ho. induction o as [|[k0 c0] o IH]; simpl; [done |].
  assert (∀ k1 cb1, (k1, cb1) ∈ o → catch_free arg (cb1 arg)) as Ho'.
  { intros k1 cb1 Hin1. eapply Ho. by right. }
  destruct (decide (k = k0)) as [->|Hne]; [by apply IH |].
  intros k' cb' [[= -> ->]|Hin]%elem_of_cons; [eapply Ho; by left |].
  by eapply IH.
Qed.

Lemma obj_get_elem {V} k v (o : list (string * V)) :
  obj_get k o = Some v → (k, v) ∈ o.
Proof.
  induction o as [|[k' v'] o IH]; simpl; [done |].
  destruct (decide (k = k')) as [->|Hne].
  - intros [= ->]. left.
  - intros H. right. by apply IH.
Qed.

(** The call returned without logging anything. *)
Local Ltac logs_nothing :=
  exists []; simpl; rewrite app_nil_r; split; [done | apply unwinds_nil].

Section Uncaught.
Variable call : prog → state → outcome * state.
Hypothesis call_runs : ∀ p s r s',
  _isDispatching s = true → call p s = (r, s') → ∃ evs, runs false s evs s'.
Hypothesis call_unwinds : ∀ p s r s',
  _isDispatching s = true →
  registry_catch_free (_pendingPayload s) s →
  catch_free (_pendingPayload s) p →
  call p s = (r, s') →
  registry_catch_free (_pendingPayload s) s' ∧
  ∃ evs, log s' = log s ++ evs ∧ unwinds r evs.

Lemma _invokePayloadable_unwinds by_ id s r s' :
  _isDispatching s = true →
  registry_catch_free (_pendingPayload s) s →
  obj_has id (_payloadables s) = true →
  _invokePayloadable call by_ id s = (r, s') →
  registry_catch_free (_pendingPayload s) s' ∧
  ∃ evs, log s' = log s ++ evs ∧ unwinds r evs.
Proof.
  intros Hd Hcf [cb Hcb]%obj_has_true Hi.
  apply (_invokePayloadable_shape _ call_runs _ _ cb) in Hi
    as (evs0 & s1 & Hc & _ & ->); [|done..].
  apply call_unwinds in Hc as (Hcf1 & evs & Hlog & Hu); [|done|done|].
  2:{ simpl. by eapply Hcf, obj_get_elem. }
  simpl in *. destruct r as [|e|].
  - split; [done |]. exists (Called by_ id (_pendingPayload s) :: evs ++ [Handled id]).
    simpl. rewrite Hlog, <- !app_assoc. split; [done |].
    apply unwinds_quiet. constructor; [done |].
    apply Forall_app. split; [by apply unwinds_normal_quiet | by constructor].
  - split; [done |].
    exists (Called by_ id (_pendingPayload s) :: evs ++ [Raised by_ id e]).
    simpl. rewrite Hlog, <- !app_assoc. split; [done |].
    destruct Hu as (q & t & -> & Hq & Ht).
    exists (Called by_ id (_pendingPayload s) :: q), (t ++ [Raised by_ id e]).
    rewrite <- !app_assoc. split_and!; [done | by constructor |].
    apply Forall_app. split; [done |]. constructor; [eauto | done].
  - split; [done |]. exists (Called by_ id (_pendingPayload s) :: evs).
    rewrite Hlog, <- !app_assoc. split; [done |].
    destruct Hu as (q & t & -> & Hq & ->).
    exists (Called by_ id (_pendingPayload s) :: q), [].
    split_and!; [done | by constructor | done].
Qed.

Lemma waitFor_loop_unwinds ids s r s' :
  _isDispatching s = true →
  registry_catch_free (_pendingPayload s) s →
  waitFor_loop call ids s = (r, s') →
  registry_catch_free (_pendingPayload s) s' ∧
  ∃ evs, log s' = log s ++ evs ∧ unwinds r evs.
Proof.
  revert s. induction ids as [|id ids IH]; intros s Hd Hcf; simpl.
  { intros [= <- <-]. split; [done | logs_nothing]. }
  assert (∀ r0, (r0, s) = (r, s') →
    registry_catch_free (_pendingPayload s) s' ∧
    ∃ evs, log s' = log s ++ evs ∧ unwinds r evs) as Hstop.
  { intros r0 [= <- <-]. split; [done | logs_nothing]. }
  destruct (truthy (_isPending s) id) eqn:Hp.
  - destruct (truthy (_isHandled s) id); simpl; [by apply IH | apply Hstop].
  - destruct (obj_has id (_payloadables s)) eqn:Hreg; simpl; [|apply Hstop].
    destruct (_invokePayloadable call ByWaitFor id s) as [o s1] eqn:Hi.
    pose proof Hi as Hi'.
    eapply (_invokePayloadable_runs _ call_runs false) in Hi' as [evs0 H0];
      [|done..].
    apply _invokePayloadable_unwinds in Hi as (Hcf1 & evs1 & Hlog1 & Hu1);
      [|done..].
    destruct o as [|e|]; [|intros [= <- <-]; eauto..].
    intros H2. apply IH in H2 as (Hcf2 & evs2 & Hlog2 & Hu2).
    + rewrite (runs_pendingPayload _ _ _ _ H0) in Hcf2. split; [done |].
      exists (evs1 ++ evs2). rewrite Hlog2, Hlog1, app_assoc.
      split; [done | by apply unwinds_app].
    + by rewrite (runs_isDispatching _ _ _ _ H0).
    + by rewrite (runs_pendingPayload _ _ _ _ H0).
Qed.

Lemma dispatch_loop_unwinds ids s r s' :
  _isDispatching s = true →
  registry_catch_free (_pendingPayload s) s →
  dispatch_loop call ids s = (r, s') →
  ∃ evs, log s' = log s ++ evs ∧ unwinds r evs.
Proof.
  revert s. induction ids as [|id ids IH]; intros s Hd Hcf; simpl.
  { intros [= <- <-]. logs_nothing. }
  destruct (obj_has id (_payloadables s)) eqn:Hreg; simpl; [|by apply IH].
  destruct (truthy (_isPending s) id) eqn:Hp; [by apply IH |].
  destruct (_invokePayloadable call ByDispatch id s) as [o s1] eqn:Hi.
  pose proof Hi as Hi'.
  eapply (_invokePayloadable_runs _ call_runs true) in Hi' as [evs0 H0];
    [|done..].
  apply _invokePayloadable_unwinds in Hi as (Hcf1 & evs1 & Hlog1 & Hu1);
    [|done..].
  destruct o as [|e|]; [|intros [= <- <-]; eauto..].
  intros H2. apply IH in H2 as (evs2 & Hlog2 & Hu2).
  - exists (evs1 ++ evs2). rewrite Hlog2, Hlog1, app_assoc.
    split; [done | by apply unwinds_app].
  - by rewrite (runs_isDispatching _ _ _ _ H0).
  - by rewrite (runs_pendingPayload _ _ _ _ H0).
Qed.

Lemma exec_body_unwinds p s r s' :
  _isDispatching s = true →
  registry_catch_free (_pendingPayload s) s →
  catch_free (_pendingPayload s) p →
  exec_body call p s = (r, s') →
  registry_catch_free (_pendingPayload s) s' ∧
  ∃ evs, log s' = log s ++ evs ∧ unwinds r evs.
Proof.
  revert s r s'.
  induction p as [|p IHp q IHq|k|b IHb h IHh|k|cb|id|args|pl|p IHp q IHq];
    intros s r s' Hd Hcf Hp; simpl in *.
  - intros [= <- <-]. split; [done | logs_nothing].
  - destruct Hp as [Hp Hq].
    destruct (exec_body call p s) as [o s1] eqn:E1. pose proof E1 as E1'.
    apply (exec_body_runs _ call_runs) in E1' as [evs0 H0]; [|done].
    apply IHp in E1 as (Hcf1 & evs1 & Hlog1 & Hu1); [|done..].
    destruct o as [|e|]; [|intros [= <- <-]; eauto..].
    intros H2. apply IHq in H2 as (Hcf2 & evs2 & Hlog2 & Hu2).
    + rewrite (runs_pendingPayload _ _ _ _ H0) in Hcf2. split; [done |].
      exists (evs1 ++ evs2). rewrite Hlog2, Hlog1, app_assoc.
      split; [done | by apply unwinds_app].
    + by rewrite (runs_isDispatching _ _ _ _ H0).
    + by rewrite (runs_pendingPayload _ _ _ _ H0).
    + by rewrite (runs_pendingPayload _ _ _ _ H0).
  - intros [= <- <-]. split; [done | logs_nothing].
  - done.
  - intros [= <- <-]. split; [done |]. exists [Marked k].
    split; [done |]. apply unwinds_quiet. by repeat constructor.
  - intros [= <- <-]. split.
    + by apply (registry_catch_free_set _ _ _ (with_lastID _ s)).
    + logs_nothing.
  - unfold unregister.
    destruct (obj_has id (_payloadables s)); simpl; intros [= <- <-].
    + split; [by apply registry_catch_free_delete |].
      logs_nothing.
    + split; [done | logs_nothing].
  - unfold waitFor. rewrite Hd. simpl. by apply waitFor_loop_unwinds.
  - rewrite dispatch_rejected by done. intros [= <- <-].
    split; [done | logs_nothing].
  - unfold isDispatching. rewrite Hd. destruct Hp as [Hp _]. by apply IHp.
Qed.
End Uncaught.

Lemma exec_unwinds fuel p s r s' :
  _isDispatching s = true →
  registry_catch_free (_pendingPayload s) s →
  catch_free (_pendingPayload s) p →
  exec fuel p s = (r, s') →
  registry_catch_free (_pendingPayload s) s' ∧
  ∃ evs, log s' = log s ++ evs ∧ unwinds r evs.
Proof.
  revert p s r s'. induction fuel as [|fuel IH]; intros p s r s' Hd Hcf Hp.
  - intros [= <- <-]. split; [done | logs_nothing].
  - by apply (exec_body_unwinds _ (exec_runs fuel) IH).
Qed.

(** ** Rounds *)

Lemma round_log_eq pl s r s' evs :
  run_dispatch pl s = (r, s') → log s' = log s ++ evs → round_log pl s = evs.
Proof.
  intros Hrun Hlog. unfold round_log. rewrite Hrun. simpl.
  by rewrite Hlog, drop_app_length.
Qed.

Lemma run_dispatch_unwinds pl s r s' :
  _isDispatching s = false →
  registry_catch_free (Some pl) s →
  run_dispatch pl s = (r, s') →
  unwinds r (round_log pl s).
Proof.
  intros Hd Hcf Hrun. pose proof Hrun as Hrun'. revert Hrun'.
  unfold run_dispatch. set (n := weight (Some pl) ∅ (_payloadables s)).
  unfold dispatch. rewrite Hd. cbn [invariant]. cbv zeta.
  destruct (_startDispatching_spec pl s) as (E1 & E2 & _ & E4 & E5 & _).
  destruct (dispatch_loop _ _ _) as [r2 s2] eqn:Hl. intros [= -> <-].
  apply (dispatch_loop_unwinds _ (exec_runs (S n)) (exec_unwinds (S n))) in Hl
    as (evs & Hlog & Hu); [|done|].
  - rewrite (round_log_eq _ _ _ _ evs Hrun); [done |].
    simpl. by rewrite Hlog, E5.
  - rewrite E4. intros k cb Hin. rewrite E1 in Hin. by eapply Hcf.
Qed.

Lemma called_by_dispatch_elem id arg (evs : list event) :
  Called ByDispatch id arg ∈ evs → id ∈ called_by_dispatch evs.
Proof.
  induction evs as [|e evs IH]; [by intros ?%elem_of_nil |].
  intros [<-|Hin]%elem_of_cons; simpl; [left |].
  destruct e as [[]| | |]; try right; auto.
Qed.

Lemma obj_get_set_eq {V} k v (o : list (string * V)) :
  obj_get k (obj_set k v o) = Some v.
Proof.
  induction o as [|[k' v'] o IH]; simpl.
  - by rewrite decide_True.
  - destruct (decide (k = k')) as [->|Hne]; simpl.
    + by rewrite decide_True.
    + by rewrite decide_False.
Qed.

(** C4, as the code has it: a call of [dispatch] that starts a round
    comes back -- normally or with an error -- with the stored payload
    removed and [isDispatching()] false.  The pending and handled flags are
    not removed on the way out: every id entered during the round still
    reads pending.  They are reset, for every registered token, when the
    next round starts. *)
Theorem dispatch_tears_down pl s r s' :
  isDispatching s = false →
  run_dispatch pl s = (r, s') →
  r ≠ OutOfFuel ∧
  _pendingPayload s' = None ∧
  isDispatching s' = false ∧
  (∀ id, id ∈ called (round_log pl s) → truthy (_isPending s') id = true) ∧
  (∀ pl' id, id ∈ obj_keys (_payloadables s') →
     _isPending (_startDispatching pl' s') !! id = Some false ∧
     _isHandled (_startDispatching pl' s') !! id = Some false).
Proof.
  intros Hd Hrun. pose proof (run_dispatch_total pl s) as Htot.
  rewrite Hrun in Htot.
  destruct (run_dispatch_round _ _ _ _ Hd Hrun)
    as (s2 & body & tail & Hruns & -> & Hlog & _).
  rewrite (round_log_eq _ _ _ _ _ Hrun Hlog).
  split_and!; try done.
  - intros id Hin. by apply (runs_called_once _ _ _ _ Hruns) in Hin as [_ ?].
  - intros pl' id Hin.
    destruct (_startDispatching_spec pl' (_stopDispatching s2))
      as (_ & _ & _ & _ & _ & E6 & E7).
    rewrite E6, E7. by rewrite !decide_True.
Qed.

(** C5, as the code has it: the loop of [dispatch] only enters subscribers
    that were registered when the round started, and every callback entered
    during the round receives the payload of the round; but a subscriber
    registered during the round is entered, with that payload, as soon as a
    callback calls [waitFor] on it. *)
Theorem late_subscriber_reached_by_waitFor pl s :
  isDispatching s = false →
  (∀ id arg, Called ByDispatch id arg ∈ round_log pl s →
             id ∈ obj_keys (_payloadables s)) ∧
  (∀ by_ id arg, Called by_ id arg ∈ round_log pl s → arg = Some pl) ∧
  (∀ fuel cb s1,
     isDispatching s1 = true →
     truthy (_isPending s1) (register cb s1).1 = false →
     ∃ evs,
       log (waitFor (exec fuel) [VObj (Some (register cb s1).1)]
                    (register cb s1).2).2
       = log s1 ++ Called ByWaitFor (register cb s1).1 (_pendingPayload s1)
                :: evs).
Proof.
  intros Hd. destruct (run_dispatch pl s) as [r s'] eqn:Hrun.
  destruct (run_dispatch_round _ _ _ _ Hd Hrun)
    as (s2 & body & tail & Hruns & -> & Hlog & Hsub & _ & Htail).
  rewrite (round_log_eq _ _ _ _ _ Hrun Hlog).
  destruct (_startDispatching_spec pl s) as (_ & _ & _ & E4 & _).
  split_and!.
  - intros id arg Hin. eapply elem_of_sublist; [|exact Hsub].
    apply elem_of_app in Hin as [Hin|Hin];
      [by eapply called_by_dispatch_elem |].
    destruct r as [|e|]; [by subst; apply elem_of_nil in Hin| |
                          by subst; apply elem_of_nil in Hin].
    destruct Htail as [id' ->]. by apply list_elem_of_singleton in Hin.
  - intros by_ id arg Hin. rewrite <- E4.
    by eapply (runs_args _ _ _ _ Hruns).
  - intros fuel cb s1 Hd1 Hp.
    set (id := (register cb s1).1) in *. set (s1' := (register cb s1).2).
    assert (obj_get id (_payloadables s1') = Some cb) as Hcb
      by apply obj_get_set_eq.
    rewrite waitFor_single; [|done|done|apply obj_has_true; eauto].
    destruct (_invokePayloadable _ _ _ _) as [r1 s3] eqn:Hi.
    apply (_invokePayloadable_shape _ (exec_runs fuel) _ _ cb) in Hi
      as (evs & s4 & _ & Hruns1 & ->); [|done..].
    apply runs_log in Hruns1. simpl in *.
    destruct r1 as [|e|]; simpl; rewrite Hruns1, <- ?app_assoc; simpl;
      eauto.
Qed.

Lemma raised_by_dispatch_last (body tail pre post : list event) id e r :
  Forall (λ e, is_raised_by_dispatch e = false) body →
  match r with
  | Throw e => ∃ id, tail = [Raised ByDispatch id e]
  | _ => tail = []
  end →
  body ++ tail = pre ++ Raised ByDispatch id e :: post →
  post = [] ∧ r = Throw e.
Proof.
  intros Hbody Htail [[post1 [-> ->]]|[pre2 [-> E]]]%app_cons_split.
  - apply Forall_app in Hbody as [_ Hbody]. by inversion Hbody.
  - destruct r as [|e'|]; [by subst; destruct pre2| |by subst; destruct pre2].
    destruct Htail as [id' ->].
    destruct pre2 as [|? [|]]; [|done..]. by injection E as -> -> ->.
Qed.


Lemma handled_app (evs1 evs2 : list event) :
  handled (evs1 ++ evs2) = handled evs1 ++ handled evs2.
Proof.
  induction evs1 as [|[]]; simpl; [done|done|by f_equal|done..].
Qed.

Lemma runs_handled_flag top s evs s' :
  runs top s evs s' →
  ∀ id, id ∈ handled evs → truthy (_isHandled s') id = true.
Proof.
  induction 1 as [top s|top s1 evs1 s2 evs2 s3 _ IH1 H2 IH2|top n s|top cb s
                 |top id s|top by_ id cb s evs s' _ _ _ _ IH
                 |top by_ id cb s evs s' e _ _ _ _ IH
                 |top by_ id cb s evs s' _ _ _ _ IH];
    intros id' Hin; simpl in *; try (by apply elem_of_nil in Hin).
  - rewrite handled_app in Hin. apply elem_of_app in Hin as [Hin|Hin]; [|auto].
    by apply (runs_mono _ _ _ _ H2), IH1.
  - rewrite handled_app in Hin. simpl in Hin. rewrite truthy_insert_true.
    case_decide; [done |].
    apply elem_of_app in Hin as [Hin|Hin%list_elem_of_singleton]; [auto | done].
  - rewrite handled_app, app_nil_r in Hin. auto.
  - auto.
Qed.

(** C6: in every round no id is entered twice; an id is flagged handled
    only after its callback was entered; an id entered during the round was
    not pending when the round started and is pending when it ends; an id
    flagged handled during the round reads handled and pending when it
    ends, and no handled flag stands without its pending flag; between any
    two points of a round no pending flag and no handled flag goes back;
    and an invocation sets the pending flag before it calls the callback
    and the handled flag only when the callback has returned normally. *)
Theorem token_state_advances pl s r s' :
  isDispatching s = false →
  flags_ok s →
  run_dispatch pl s = (r, s') →
  NoDup (called (round_log pl s)) ∧
  (∀ l1 id l2, round_log pl s = l1 ++ Handled id :: l2 → id ∈ called l1) ∧
  (∀ id, id ∈ called (round_log pl s) →
     truthy (_isPending (_startDispatching pl s)) id = false ∧
     truthy (_isPending s') id = true) ∧
  (∀ id, id ∈ handled (round_log pl s) →
     truthy (_isHandled s') id = true ∧ truthy (_isPending s') id = true) ∧
  flags_ok s' ∧
  (∀ fuel p s1 r1 s2,
     isDispatching s1 = true → exec fuel p s1 = (r1, s2) →
     (∀ k, truthy (_isPending s1) k = true → truthy (_isPending s2) k = true) ∧
     (∀ k, truthy (_isHandled s1) k = true → truthy (_isHandled s2) k = true) ∧
     (flags_ok s1 → flags_ok s2)) ∧
  (∀ call by_ id cb s0,
     obj_get id (_payloadables s0) = Some cb →
     let s1 := emit (Called by_ id (_pendingPayload s0))
                    (with_isPending (<[id := true]> (_isPending s0)) s0) in
     truthy (_isPending s1) id = true ∧
     _isHandled s1 = _isHandled s0 ∧
     _invokePayloadable call by_ id s0
     = match call (cb (_pendingPayload s0)) s1 with
       | (Normal, s2) =>
           (Normal, emit (Handled id)
                         (with_isHandled (<[id := true]> (_isHandled s2)) s2))
       | (Throw e, s2) => (Throw e, emit (Raised by_ id e) s2)
       | (OutOfFuel, s2) => (OutOfFuel, s2)
       end).
Proof.
  intros Hd Hok Hrun.
  destruct (run_dispatch_round _ _ _ _ Hd Hrun)
    as (s2 & body & tail & Hruns & -> & Hlog & _).
  rewrite (round_log_eq _ _ _ _ _ Hrun Hlog).
  assert (flags_ok s2) as Hok2.
  { eapply runs_flags_ok; [exact Hruns |]. by apply _startDispatching_flags_ok. }
  split_and!.
  - apply (runs_called_once _ _ _ _ Hruns).
  - apply (runs_handled_after_called _ _ _ _ Hruns).
  - intros id Hin. by apply (runs_called_once _ _ _ _ Hruns) in Hin.
  - intros id Hin. apply (runs_handled_flag _ _ _ _ Hruns) in Hin.
    split; [done |]. by apply Hok2.
  - done.
  - intros fuel p s1 r1 s3 Hd1 He. apply exec_runs in He as [evs He]; [|done].
    destruct (runs_mono _ _ _ _ He). split_and!; try done.
    by apply (runs_flags_ok _ _ _ _ He).
  - intros call by_ id cb s0 Hcb. simpl. split_and!; [|done|].
    + by rewrite truthy_insert_true, decide_True.
    + unfold _invokePayloadable. simpl. by rewrite Hcb.
Qed.

Section WaitForHandled.
Variable call : prog → state → outcome * state.
Hypothesis call_runs : ∀ p s r s',
  _isDispatching s = true → call p s = (r, s') → ∃ evs, runs false s evs s'.

Lemma waitFor_loop_handled ids s s' :
  _isDispatching s = true →
  waitFor_loop call ids s = (Normal, s') →
  ∀ id, id ∈ ids → truthy (_isHandled s') id = true.
Proof.
  revert s. induction ids as [|id ids IH]; intros s Hd Hw id' Hin.
  { by apply elem_of_nil in Hin. }
  simpl in Hw. destruct (truthy (_isPending s) id) eqn:Hp.
  - destruct (truthy (_isHandled s) id) eqn:Hh; simpl in Hw; [|done].
    apply elem_of_cons in Hin as [->|Hin]; [|by eapply IH].
    apply (waitFor_loop_runs _ call_runs) in Hw as [evs Hw]; [|done].
    by apply (runs_mono _ _ _ _ Hw).
  - destruct (obj_has id (_payloadables s)) eqn:Hreg; simpl in Hw; [|done].
    pose proof Hreg as [cb Hcb]%obj_has_true.
    destruct (_invokePayloadable call ByWaitFor id s) as [o s1] eqn:Hi.
    destruct o as [|e|]; [|done..].
    apply (_invokePayloadable_shape _ call_runs _ _ cb) in Hi
      as (evs & s2 & _ & Hruns & ->); [|done..].
    assert (_isDispatching s2 = true) as Hd2.
    { by rewrite (runs_isDispatching _ _ _ _ Hruns). }
    apply elem_of_cons in Hin as [->|Hin];
      [|eapply IH; [|exact Hw | exact Hin]; exact Hd2].
    apply (waitFor_loop_runs _ call_runs) in Hw as [evs' Hw]; [|exact Hd2].
    apply (runs_mono _ _ _ _ Hw). simpl.
    by rewrite truthy_insert_true, decide_True.
Qed.
End WaitForHandled.


(** *** Two subscribers that wait for each other *)

Lemma waitFor_circular call id s :
  _isDispatching s = true →
  truthy (_isPending s) id = true →
  truthy (_isHandled s) id = false →
  waitFor call [VObj (Some id)] s = (Throw (CircularDependency id), s).
Proof.
  intros Hd Hp Hh. unfold waitFor. rewrite Hd. simpl. by rewrite Hp, Hh.
Qed.

Lemma truthy_false_of_lookup m k : m !! k = Some false → truthy m k = false.
Proof. unfold truthy. by intros ->. Qed.

Lemma exec_S fuel p s : exec (S fuel) p s = exec_body (exec fuel) p s.
Proof. reflexivity. Qed.

Lemma exec_body_wait_then call v q s :
  exec_body call (Seq (CallWaitFor [v]) q) s
  = match waitFor call [v] s with
    | (Normal, s') => exec_body call q s'
    | r => r
    end.
Proof. reflexivity. Qed.

Lemma _invokePayloadable_unfold call by_ id cb s :
  obj_get id (_payloadables s) = Some cb →
  _invokePayloadable call by_ id s
  = match call (cb (_pendingPayload s))
               (emit (Called by_ id (_pendingPayload s))
                     (with_isPending (<[id := true]> (_isPending s)) s)) with
    | (Normal, s') =>
        (Normal, emit (Handled id)
                      (with_isHandled (<[id := true]> (_isHandled s')) s'))
    | (Throw e, s') => (Throw e, emit (Raised by_ id e) s')
    | (OutOfFuel, s') => (OutOfFuel, s')
    end.
Proof. intros Hcb. unfold _invokePayloadable. simpl. by rewrite Hcb. Qed.

Lemma mutual_round pl s tx ty px py :
  _isDispatching s = false →
  tx ≠ ty →
  _payloadables s
  = [(tx, λ arg, Seq (CallWaitFor [VObj (Some ty)]) (px arg));
     (ty, λ arg, Seq (CallWaitFor [VObj (Some tx)]) (py arg))] →
  ∃ s',
    run_dispatch pl s = (Throw (CircularDependency tx), s') ∧
    log s' = log s ++
      [Called ByDispatch tx (Some pl); Called ByWaitFor ty (Some pl);
       Raised ByWaitFor ty (CircularDependency tx);
       Raised ByDispatch tx (CircularDependency tx)] ∧
    _payloadables s' = _payloadables s ∧
    _isDispatching s' = false.
Proof.
  intros Hd Hne Hreg. unfold run_dispatch.
  assert (∃ k, S (weight (Some pl) ∅ (_payloadables s)) = S (S (S k)))
    as [k ->].
  { rewrite Hreg. simpl. unfold truthy. rewrite !lookup_empty. simpl.
    exists (regs (Some pl) (px (Some pl)) + regs (Some pl) (py (Some pl))).
    lia. }
  unfold dispatch. rewrite Hd. cbn [invariant]. cbv zeta.
  destruct (_startDispatching_spec pl s)
    as (E1 & E2 & _ & E4 & E5 & E6 & E7).
  set (s1 := _startDispatching pl s) in *. clearbody s1.
  set (cbX := λ arg, Seq (CallWaitFor [VObj (Some ty)]) (px arg)) in *.
  set (cbY := λ arg, Seq (CallWaitFor [VObj (Some tx)]) (py arg)) in *.
  assert (obj_get tx (_payloadables s1) = Some cbX) as Hget_tx.
  { rewrite E1, Hreg. simpl. by rewrite decide_True. }
  assert (obj_get ty (_payloadables s1) = Some cbY) as Hget_ty.
  { rewrite E1, Hreg. simpl. by rewrite decide_False, decide_True. }
  assert (truthy (_isPending s1) tx = false) as Hptx.
  { apply truthy_false_of_lookup. rewrite E6, Hreg, decide_True; [done |].
    left. }
  assert (truthy (_isPending s1) ty = false) as Hpty.
  { apply truthy_false_of_lookup. rewrite E6, Hreg, decide_True; [done |].
    right. left. }
  assert (truthy (_isHandled s1) tx = false) as Hhtx.
  { apply truthy_false_of_lookup. rewrite E7, Hreg, decide_True; [done |].
    left. }
  set (sA := emit (Called ByDispatch tx (Some pl))
                  (with_isPending (<[tx := true]> (_isPending s1)) s1)).
  set (sB := emit (Called ByWaitFor ty (Some pl))
                  (with_isPending (<[ty := true]> (_isPending sA)) sA)).
  (* the callback of Y, entered from the [waitFor] of X *)
  assert (exec (S (S k)) (cbY (Some pl)) sB
          = (Throw (CircularDependency tx), sB)) as HY.
  { rewrite exec_S. unfold cbY. rewrite exec_body_wait_then.
    rewrite waitFor_circular; [done | done | |done].
    simpl. by rewrite !truthy_insert_true, decide_False, decide_True. }
  (* the callback of X, entered from the loop *)
  assert (exec (S (S (S k))) (cbX (Some pl)) sA
          = (Throw (CircularDependency tx),
             emit (Raised ByWaitFor ty (CircularDependency tx)) sB)) as HX.
  { rewrite exec_S. unfold cbX. rewrite exec_body_wait_then.
    rewrite waitFor_single; [|done| |apply obj_has_true; eauto].
    2:{ simpl. by rewrite truthy_insert_true, decide_False. }
    rewrite (_invokePayloadable_unfold _ _ _ cbY) by done.
    change (_pendingPayload sA) with (_pendingPayload s1).
    rewrite E4. fold sB. by rewrite HY. }
  rewrite E1, Hreg. cbn [obj_keys fmap list_fmap fst dispatch_loop].
  replace (obj_has tx (_payloadables s1)) with true
    by (symmetry; apply obj_has_true; eauto).
  rewrite Hptx. cbn [negb].
  rewrite (_invokePayloadable_unfold _ _ _ cbX) by done.
  rewrite E4. fold sA. rewrite HX.
  eexists. split; [reflexivity |]. simpl. rewrite E1, E5.
  by rewrite <- !app_assoc, Hreg.
Qed.

(** C2: with X and Y waiting for each other -- X being the one registered
    first, whatever their tokens, whatever else their callbacks would go
    on to do and whatever rounds the engine has been through -- [dispatch]
    throws [CircularDependency] naming X: X was entered first and is
    pending, not handled, when the [waitFor] of Y, the second of the two
    calls, reaches it.  Afterwards [isDispatching()] is false and the next
    [dispatch] is accepted: it runs a round of its own, which meets the
    same cycle.  In general [waitFor] on an id that is pending and not
    handled throws [CircularDependency] naming that id. *)
Theorem mutual_wait_is_circular pl pl' s n m px py :
  let tx := token_of n in
  let ty := token_of m in
  isDispatching s = false →
  n ≠ m →
  _payloadables s
  = [(tx, λ arg, Seq (CallWaitFor [VObj (Some ty)]) (px arg));
     (ty, λ arg, Seq (CallWaitFor [VObj (Some tx)]) (py arg))] →
  let s1 := (run_dispatch pl s).2 in
  (run_dispatch pl s).1 = Throw (CircularDependency tx) ∧
  round_log pl s
  = [Called ByDispatch tx (Some pl); Called ByWaitFor ty (Some pl);
     Raised ByWaitFor ty (CircularDependency tx);
     Raised ByDispatch tx (CircularDependency tx)] ∧
  isDispatching s1 = false ∧
  (run_dispatch pl' s1).1 = Throw (CircularDependency tx) ∧
  called (round_log pl' s1) = [tx; ty] ∧
  isDispatching (run_dispatch pl' s1).2 = false ∧
  (∀ call id s0,
     isDispatching s0 = true →
     truthy (_isPending s0) id = true →
     truthy (_isHandled s0) id = false →
     waitFor call [VObj (Some id)] s0 = (Throw (CircularDependency id), s0)).
Proof.
  intros tx ty Hd Hnm Hreg.
  assert (tx ≠ ty) as Hne by (intros E; by apply token_of_inj in E).
  destruct (mutual_round pl s tx ty px py Hd Hne Hreg)
    as (s1 & Hrun1 & Hlog1 & Hreg1 & Hd1).
  cbv zeta. rewrite (round_log_eq _ _ _ _ _ Hrun1 Hlog1), Hrun1.
  cbn [fst snd]. rewrite Hreg in Hreg1.
  destruct (mutual_round pl' s1 tx ty px py Hd1 Hne Hreg1)
    as (s2 & Hrun2 & Hlog2 & Hreg2 & Hd2).
  rewrite (round_log_eq _ _ _ _ _ Hrun2 Hlog2), Hrun2.
  split_and!; try done. apply waitFor_circular.
Qed.

(** * Beyond the claims: what else the engine guarantees *)

(** ** The registry *)

(** The registry holds no token twice, and every token in it came from the
    counter of this engine: its number is below [_lastID]. *)
Definition sound (s : state) : Prop :=
  NoDup (obj_keys (_payloadables s)) ∧
  ∀ k, k ∈ obj_keys (_payloadables s) →
       ∃ n, k = token_of n ∧ (n < _lastID s)%N.

Lemma obj_keys_set_fresh {V} k v (o : list (string * V)) :
  k ∉ obj_keys o → obj_keys (obj_set k v o) = obj_keys o ++ [k].
Proof.
  induction o as [|[k' v'] o IH]; simpl; [done |].
  intros Hnin. apply not_elem_of_cons in Hnin as [Hne Hnin].
  rewrite decide_False by done. simpl. f_equal. by apply IH.
Qed.

Lemma obj_get_set_ne {V} k k' v (o : list (string * V)) :
  k ≠ k' → obj_get k' (obj_set k v o) = obj_get k' o.
Proof.
  intros Hne. induction o as [|[k0 v0] o IH]; simpl.
  - by rewrite decide_False.
  - destruct (decide (k = k0)) as [->|Hne0]; simpl.
    + by rewrite !decide_False.
    + by rewrite IH.
Qed.

Lemma obj_delete_set_fresh {V} k v (o : list (string * V)) :
  k ∉ obj_keys o → obj_delete k (obj_set k v o) = o.
Proof.
  induction o as [|[k' v'] o IH]; simpl.
  - intros _. by rewrite decide_True.
  - intros Hnin. apply not_elem_of_cons in Hnin as [Hne Hnin].
    rewrite decide_False by done. simpl. rewrite decide_False by done.
    f_equal. by apply IH.
Qed.

Lemma obj_keys_delete_filter {V} k (o : list (string * V)) :
  obj_keys (obj_delete k o) = filter (λ k', k' ≠ k) (obj_keys o).
Proof.
  induction o as [|[k' v'] o IH]; simpl; [done |].
  destruct (decide (k = k')) as [->|Hne].
  - rewrite filter_cons_False by (intros H; by apply H). done.
  - rewrite filter_cons_True by done. simpl. by f_equal.
Qed.

Lemma obj_get_delete_ne {V} k k' (o : list (string * V)) :
  k ≠ k' → obj_get k' (obj_delete k o) = obj_get k' o.
Proof.
  intros Hne. induction o as [|[k0 v0] o IH]; simpl; [done |].
  destruct (decide (k = k0)) as [->|Hne0]; simpl.
  - by rewrite decide_False.
  - by rewrite IH.
Qed.

Lemma obj_get_delete_none {V} k k' (o : list (string * V)) :
  obj_get k' o = None → obj_get k' (obj_delete k o) = None.
Proof.
  destruct (decide (k = k')) as [->|Hne].
  - intros _. apply obj_get_delete_eq.
  - by rewrite obj_get_delete_ne.
Qed.

Lemma sound_fresh s : sound s → token_of (_lastID s) ∉ obj_keys (_payloadables s).
Proof.
  intros [_ Hb] Hin. apply Hb in Hin as (n & E & Hn).
  apply token_of_inj in E. lia.
Qed.

Lemma sound_init : sound init.
Proof.
  split; [constructor |]. intros k Hk. by apply elem_of_nil in Hk.
Qed.

Lemma sound_register cb s : sound s → sound (register cb s).2.
Proof.
  intros Hs. pose proof (sound_fresh s Hs) as Hfresh. destruct Hs as [Hnd Hb].
  split; simpl; rewrite obj_keys_set_fresh by done.
  - apply NoDup_app. split_and!; [done | | apply NoDup_singleton].
    intros k Hk ->%list_elem_of_singleton. done.
  - intros k [Hk| ->%list_elem_of_singleton]%elem_of_app.
    + apply Hb in Hk as (n & -> & Hn). exists n. split; [done | lia].
    + exists (_lastID s). split; [done | lia].
Qed.

Lemma sound_delete id s :
  sound s → sound (with_payloadables (obj_delete id (_payloadables s)) s).
Proof.
  intros [Hnd Hb]. split; simpl; rewrite obj_keys_delete_filter.
  - by apply NoDup_filter.
  - intros k [_ Hk]%list_elem_of_filter. by apply Hb.
Qed.

Lemma sound_unregister id s : sound s → sound (unregister id s).2.
Proof.
  intros Hs. unfold unregister.
  destruct (obj_has id (_payloadables s)); simpl; [|done].
  by apply sound_delete.
Qed.

Lemma sound_frame s s' :
  _payloadables s' = _payloadables s → _lastID s' = _lastID s →
  sound s → sound s'.
Proof. unfold sound. by intros -> ->. Qed.

Lemma runs_sound top s evs s' : runs top s evs s' → sound s → sound s'.
Proof.
  induction 1 as [top s|top s1 evs1 s2 evs2 s3 _ IH1 _ IH2|top n s|top cb s
                 |top id s|top by_ id cb s evs s' _ _ _ _ IH
                 |top by_ id cb s evs s' e _ _ _ _ IH
                 |top by_ id cb s evs s' _ _ _ _ IH];
    intros Hs; auto.
  - by apply sound_register.
  - by apply sound_delete.
Qed.

Lemma run_dispatch_sound pl s : sound s → sound (run_dispatch pl s).2.
Proof.
  intros Hs. destruct (_isDispatching s) eqn:Hd.
  - unfold run_dispatch. by rewrite dispatch_rejected.
  - destruct (run_dispatch pl s) as [r s'] eqn:Hrun.
    destruct (run_dispatch_round _ _ _ _ Hd Hrun)
      as (s2 & body & tail & Hruns & -> & _).
    destruct (_startDispatching_spec pl s) as (E1 & _ & E3 & _).
    eapply sound_frame; [..|apply (runs_sound _ _ _ _ Hruns)]; [done..|].
    by eapply sound_frame; [..|exact Hs].
Qed.




(** X4: [unregister] of a registered id removes that entry and no other:
    the remaining keys keep their order, every other lookup is unchanged,
    and the flags the id may carry from a round are left as they are. *)
Theorem unregister_removes_one id s :
  obj_has id (_payloadables s) = true →
  ∃ s',
    unregister id s = (Normal, s') ∧
    obj_keys (_payloadables s')
    = filter (λ k, k ≠ id) (obj_keys (_payloadables s)) ∧
    obj_get id (_payloadables s') = None ∧
    (∀ k, k ≠ id → obj_get k (_payloadables s') = obj_get k (_payloadables s)) ∧
    s' = with_payloadables (_payloadables s') s.
Proof.
  intros Hreg. eexists. unfold unregister. rewrite Hreg. simpl.
  split_and!; [done | | | |done].
  - apply obj_keys_delete_filter.
  - apply obj_get_delete_eq.
  - intros k Hne. by apply obj_get_delete_ne.
Qed.

(** ** What a round delivers *)

Lemma runs_stays_deleted top s evs s' :
  runs top s evs s' →
  ∀ n, (n < _lastID s)%N →
       obj_get (token_of n) (_payloadables s) = None →
       obj_get (token_of n) (_payloadables s') = None.
Proof.
  induction 1 as [top s|top s1 evs1 s2 evs2 s3 H1 IH1 _ IH2|top m s|top cb s
                 |top id s|top by_ id cb s evs s' _ _ _ _ IH
                 |top by_ id cb s evs s' e _ _ _ _ IH
                 |top by_ id cb s evs s' _ _ _ _ IH];
    intros n Hn Hnone; simpl in *; auto.
  - apply IH2; [|by apply IH1].
    apply runs_frame in H1 as (_ & _ & ? & _). lia.
  - rewrite obj_get_set_ne; [done |].
    intros E%token_of_inj. lia.
  - by apply obj_get_delete_none.
Qed.

Lemma runs_called_registered top s evs s' :
  runs top s evs s' →
  ∀ n, (n < _lastID s)%N →
       obj_get (token_of n) (_payloadables s) = None →
       token_of n ∉ called evs.
Proof.
  induction 1 as [top s|top s1 evs1 s2 evs2 s3 H1 IH1 _ IH2|top m s|top cb s
                 |top id s|top by_ id cb s evs s' _ _ Hcb _ IH
                 |top by_ id cb s evs s' e _ _ Hcb _ IH
                 |top by_ id cb s evs s' _ _ Hcb _ IH];
    intros n Hn Hnone; simpl in *; try apply not_elem_of_nil.
  - rewrite called_app. apply not_elem_of_app. split; [by apply IH1 |].
    apply IH2; [|by eapply runs_stays_deleted].
    apply runs_frame in H1 as (_ & _ & ? & _). lia.
  - rewrite called_app, app_nil_r. apply not_elem_of_cons.
    split; [congruence | by apply IH].
  - rewrite called_app, app_nil_r. apply not_elem_of_cons.
    split; [congruence | by apply IH].
  - apply not_elem_of_cons. split; [congruence | by apply IH].
Qed.

Lemma runs_pending_called top s evs s' :
  runs top s evs s' →
  ∀ id, truthy (_isPending s) id = false →
        truthy (_isPending s') id = true → id ∈ called evs.
Proof.
  induction 1 as [top s|top s1 evs1 s2 evs2 s3 _ IH1 _ IH2|top m s|top cb s
                 |top id s|top by_ id cb s evs s' _ _ _ _ IH
                 |top by_ id cb s evs s' e _ _ _ _ IH
                 |top by_ id cb s evs s' _ _ _ _ IH];
    intros id' Hf Ht; simpl in *; try congruence.
  - rewrite called_app. apply elem_of_app.
    destruct (truthy (_isPending s2) id') eqn:E; [left | right]; auto.
  - rewrite called_app, app_nil_r.
    destruct (decide (id = id')) as [->|Hne]; [left | right].
    apply IH; [|done]. by rewrite truthy_insert_true, decide_False.
  - rewrite called_app, app_nil_r.
    destruct (decide (id = id')) as [->|Hne]; [left | right].
    apply IH; [|done]. by rewrite truthy_insert_true, decide_False.
  - destruct (decide (id = id')) as [->|Hne]; [left | right].
    apply IH; [|done]. by rewrite truthy_insert_true, decide_False.
Qed.

Lemma runs_handled_flag_inv top s evs s' :
  runs top s evs s' →
  ∀ id, truthy (_isHandled s) id = false →
        truthy (_isHandled s') id = true → id ∈ handled evs.
Proof.
  induction 1 as [top s|top s1 evs1 s2 evs2 s3 _ IH1 _ IH2|top m s|top cb s
                 |top id s|top by_ id cb s evs s' _ _ _ _ IH
                 |top by_ id cb s evs s' e _ _ _ _ IH
                 |top by_ id cb s evs s' _ _ _ _ IH];
    intros id' Hf Ht; simpl in *; try congruence.
  - rewrite handled_app. apply elem_of_app.
    destruct (truthy (_isHandled s2) id') eqn:E; [left | right]; auto.
  - rewrite handled_app. simpl. apply elem_of_app.
    destruct (decide (id = id')) as [->|Hne]; [right; left | left].
    apply IH; [done |]. by rewrite truthy_insert_true, decide_False in Ht.
  - rewrite handled_app, app_nil_r. auto.
  - auto.
Qed.

(** A call that has logged no error and has not run out of fuel has seen
    every callback it entered through to its handled flag. *)
Definition delivers (r : outcome) (evs : list event) (s' : state) : Prop :=
  Forall (λ ev, is_raised ev = false) evs → r ≠ OutOfFuel →
  ∀ id, id ∈ called evs → truthy (_isHandled s') id = true.

Lemma delivers_app r evs1 evs2 s1 s2 :
  delivers Normal evs1 s1 →
  (∀ k, truthy (_isHandled s1) k = true → truthy (_isHandled s2) k = true) →
  delivers r evs2 s2 →
  delivers r (evs1 ++ evs2) s2.
Proof.
  intros H1 Hmono H2 [Hq1 Hq2]%Forall_app Hr id.
  rewrite called_app. intros [Hin|Hin]%elem_of_app.
  - by apply Hmono, H1.
  - by apply H2.
Qed.

Section Delivered.
Variable call : prog → state → outcome * state.
Hypothesis call_runs : ∀ p s r s',
  _isDispatching s = true → call p s = (r, s') → ∃ evs, runs false s evs s'.
Hypothesis call_delivers : ∀ p s r s',
  _isDispatching s = true → call p s = (r, s') →
  ∃ evs, log s' = log s ++ evs ∧ delivers r evs s'.

Lemma _invokePayloadable_delivers by_ id s r s' :
  _isDispatching s = true →
  obj_has id (_payloadables s) = true →
  _invokePayloadable call by_ id s = (r, s') →
  ∃ evs, log s' = log s ++ evs ∧ delivers r evs s'.
Proof.
  intros Hd [cb Hcb]%obj_has_true Hi.
  apply (_invokePayloadable_shape _ call_runs _ _ cb) in Hi
    as (evs0 & s1 & Hc & _ & ->); [|done..].
  apply call_delivers in Hc as (evs & Hlog & Hdel); [|done].
  simpl in Hlog. destruct r as [|e|].
  - exists (Called by_ id (_pendingPayload s) :: evs ++ [Handled id]).
    simpl. rewrite Hlog, <- !app_assoc. split; [done |].
    intros Hq _ id'. simpl. rewrite called_app, app_nil_r.
    apply Forall_cons in Hq as [_ [Hq _]%Forall_app].
    rewrite truthy_insert_true. case_decide; [done |].
    intros [->|Hin]%elem_of_cons; [done | by apply Hdel].
  - exists (Called by_ id (_pendingPayload s) :: evs ++ [Raised by_ id e]).
    simpl. rewrite Hlog, <- !app_assoc. split; [done |].
    intros Hq. apply Forall_cons in Hq as [_ [_ Hq]%Forall_app].
    by apply Forall_cons in Hq as [? _].
  - exists (Called by_ id (_pendingPayload s) :: evs).
    rewrite Hlog, <- !app_assoc. split; [done |]. by intros _ ?.
Qed.

Lemma waitFor_loop_delivers ids s r s' :
  _isDispatching s = true →
  waitFor_loop call ids s = (r, s') →
  ∃ evs, log s' = log s ++ evs ∧ delivers r evs s'.
Proof.
  assert (∀ r s, ∃ evs, log s = log s ++ evs ∧ delivers r evs s) as Hstop.
  { intros r0 s0. exists []. rewrite app_nil_r. split; [done |].
    intros _ _ id Hin. by apply elem_of_nil in Hin. }
  revert s. induction ids as [|id ids IH]; intros s Hd; simpl.
  { intros [= <- <-]. apply Hstop. }
  destruct (truthy (_isPending s) id) eqn:Hp.
  - destruct (truthy (_isHandled s) id); simpl; [by apply IH |].
    intros [= <- <-]. apply Hstop.
  - destruct (obj_has id (_payloadables s)) eqn:Hreg; simpl.
    2:{ intros [= <- <-]. apply Hstop. }
    destruct (_invokePayloadable call ByWaitFor id s) as [o s1] eqn:Hi.
    pose proof Hi as Hi'.
    eapply (_invokePayloadable_runs _ call_runs false) in Hi' as [evs0 H0];
      [|done..].
    apply _invokePayloadable_delivers in Hi as (evs1 & Hlog1 & Hdel1);
      [|done..].
    destruct o as [|e|]; [|intros [= <- <-]; eauto..].
    intros H2. pose proof H2 as H2'.
    assert (_isDispatching s1 = true) as Hd1
      by by rewrite (runs_isDispatching _ _ _ _ H0).
    apply (waitFor_loop_runs _ call_runs) in H2' as [evs2' H2']; [|done].
    apply IH in H2 as (evs2 & Hlog2 & Hdel2); [|done].
    exists (evs1 ++ evs2). rewrite Hlog2, Hlog1, app_assoc. split; [done |].
    eapply delivers_app; [done | apply (runs_mono _ _ _ _ H2') | done].
Qed.

Lemma exec_body_delivers p s r s' :
  _isDispatching s = true →
  exec_body call p s = (r, s') →
  ∃ evs, log s' = log s ++ evs ∧ delivers r evs s'.
Proof.
  assert (∀ r s, ∃ evs, log s = log s ++ evs ∧ delivers r evs s) as Hstop.
  { intros r0 s0. exists []. rewrite app_nil_r. split; [done |].
    intros _ _ id Hin. by apply elem_of_nil in Hin. }
  revert s r s'.
  induction p as [|p IHp q IHq|k|b IHb h IHh|k|cb|id|args|pl|p IHp q IHq];
    intros s r s' Hd; simpl in *.
  - intros [= <- <-]. apply Hstop.
  - destruct (exec_body call p s) as [o s1] eqn:E1. pose proof E1 as E1'.
    apply (exec_body_runs _ call_runs) in E1' as [evs0 H0]; [|done].
    apply IHp in E1 as (evs1 & Hlog1 & Hdel1); [|done].
    destruct o as [|e|]; [|intros [= <- <-]; eauto..].
    intros H2. pose proof H2 as H2'.
    assert (_isDispatching s1 = true) as Hd1
      by by rewrite (runs_isDispatching _ _ _ _ H0).
    apply (exec_body_runs _ call_runs) in H2' as [evs2' H2']; [|done].
    apply IHq in H2 as (evs2 & Hlog2 & Hdel2); [|done].
    exists (evs1 ++ evs2). rewrite Hlog2, Hlog1, app_assoc. split; [done |].
    eapply delivers_app; [done | apply (runs_mono _ _ _ _ H2') | done].
  - intros [= <- <-]. apply Hstop.
  - destruct (exec_body call b s) as [o s1] eqn:E1. pose proof E1 as E1'.
    apply (exec_body_runs _ call_runs) in E1' as [evs0 H0]; [|done].
    apply IHb in E1 as (evs1 & Hlog1 & Hdel1); [|done].
    destruct o as [|e|]; [intros [= <- <-]; eauto| |intros [= <- <-]; eauto].
    intros H2. pose proof H2 as H2'.
    assert (_isDispatching s1 = true) as Hd1
      by by rewrite (runs_isDispatching _ _ _ _ H0).
    apply (exec_body_runs _ call_runs) in H2' as [evs2' H2']; [|done].
    apply IHh in H2 as (evs2 & Hlog2 & Hdel2); [|done].
    exists (evs1 ++ evs2). rewrite Hlog2, Hlog1, app_assoc. split; [done |].
    intros [Hq1 Hq2]%Forall_app Hr id. rewrite called_app.
    intros [Hin|Hin]%elem_of_app; [|by apply Hdel2].
    apply (runs_mono _ _ _ _ H2'). by apply Hdel1.
  - intros [= <- <-]. exists [Marked k]. split; [done |].
    intros _ _ id Hin. by apply elem_of_nil in Hin.
  - intros [= <- <-]. simpl. apply (Hstop Normal (register cb s).2).
  - unfold unregister.
    destruct (obj_has id (_payloadables s)); simpl; intros [= <- <-].
    + apply (Hstop Normal
               (with_payloadables (obj_delete id (_payloadables s)) s)).
    + apply Hstop.
  - unfold waitFor. rewrite Hd. simpl. by apply waitFor_loop_delivers.
  - rewrite dispatch_rejected by done. intros [= <- <-]. apply Hstop.
  - unfold isDispatching. rewrite Hd. by apply IHp.
Qed.

(** The loop of [dispatch]: besides, every id it was given is pending when
    it is done, unless the id is no longer registered. *)
Lemma dispatch_loop_delivers ids s r s' :
  _isDispatching s = true →
  (∀ id, id ∈ ids → ∃ n, id = token_of n ∧ (n < _lastID s)%N) →
  dispatch_loop call ids s = (r, s') →
  ∃ evs, log s' = log s ++ evs ∧ delivers r evs s' ∧
    (r = Normal →
     ∀ id, id ∈ ids → obj_has id (_payloadables s') = true →
           truthy (_isPending s') id = true).
Proof.
  revert s. induction ids as [|id ids IH]; intros s Hd Hids; simpl.
  { intros [= <- <-]. exists []. rewrite app_nil_r. split_and!; [done | |].
    - intros _ _ id Hin. by apply elem_of_nil in Hin.
    - intros _ id Hin. by apply elem_of_nil in Hin. }
  assert (∀ id', id' ∈ ids → ∃ n, id' = token_of n ∧ (n < _lastID s)%N)
    as Hids' by (intros id' Hin; apply Hids; by right).
  destruct (Hids id) as (n & -> & Hn); [by left |].
  destruct (obj_has (token_of n) (_payloadables s)) eqn:Hreg; simpl.
  2:{ intros H2. pose proof H2 as H2'.
      apply (dispatch_loop_runs _ call_runs) in H2' as [evs' H2']; [|done].
      apply IH in H2 as (evs & Hlog & Hdel & Hall); [|done..].
      exists evs. split_and!; [done..|].
      intros Hr id' [->|Hin]%elem_of_cons; [|by apply Hall].
      apply obj_has_false in Hreg.
      rewrite (proj2 (obj_has_false _ _)); [done |].
      by eapply runs_stays_deleted. }
  destruct (truthy (_isPending s) (token_of n)) eqn:Hp.
  { intros H2. pose proof H2 as H2'.
    apply (dispatch_loop_runs _ call_runs) in H2' as [evs' H2']; [|done].
    apply IH in H2 as (evs & Hlog & Hdel & Hall); [|done..].
    exists evs. split_and!; [done..|].
    intros Hr id' [->|Hin]%elem_of_cons; [|by apply Hall].
    intros _. by apply (runs_mono _ _ _ _ H2'). }
  destruct (_invokePayloadable call ByDispatch (token_of n) s)
    as [o s1] eqn:Hi.
  pose proof Hi as Hi'. pose proof Hi as Hi''.
  eapply (_invokePayloadable_runs _ call_runs true) in Hi' as [evs0 H0];
    [|done..].
  apply _invokePayloadable_delivers in Hi as (evs1 & Hlog1 & Hdel1);
    [|done..].
  destruct o as [|e|]; [|intros [= <- <-]; eauto..].
  2-3: exists evs1; split_and!; done.
  intros H2. pose proof H2 as H2'.
  assert (_isDispatching s1 = true) as Hd1
    by by rewrite (runs_isDispatching _ _ _ _ H0).
  apply (dispatch_loop_runs _ call_runs) in H2' as [evs2' H2']; [|done].
  apply IH in H2 as (evs2 & Hlog2 & Hdel2 & Hall); [|done|].
  2:{ intros id' Hin. destruct (Hids' id' Hin) as (m & -> & Hm).
      exists m. split; [done |].
      apply runs_frame in H0 as (_ & _ & ? & _). lia. }
  exists (evs1 ++ evs2). rewrite Hlog2, Hlog1, app_assoc.
  split_and!; [done | |].
  - eapply delivers_app; [done | apply (runs_mono _ _ _ _ H2') | done].
  - intros Hr id' [->|Hin]%elem_of_cons; [|by apply Hall].
    intros _. apply (runs_mono _ _ _ _ H2').
    pose proof Hreg as [cb Hcb]%obj_has_true.
    apply (_invokePayloadable_shape _ call_runs _ _ cb) in Hi''
      as (evs3 & s3 & _ & Hruns3 & ->); [|done..].
    simpl. apply (runs_mono _ _ _ _ Hruns3). simpl.
    by rewrite truthy_insert_true, decide_True.
Qed.
End Delivered.

Lemma exec_delivers fuel p s r s' :
  _isDispatching s = true →
  exec fuel p s = (r, s') →
  ∃ evs, log s' = log s ++ evs ∧ delivers r evs s'.
Proof.
  revert p s r s'. induction fuel as [|fuel IH]; intros p s r s' Hd.
  - intros [= <- <-]. exists []. rewrite app_nil_r. split; [done |].
    by intros _ ?.
  - by apply (exec_body_delivers _ (exec_runs fuel) IH).
Qed.

Lemma run_dispatch_loop pl s r s' :
  _isDispatching s = false →
  run_dispatch pl s = (r, s') →
  ∃ n s2,
    dispatch_loop (exec (S n)) (obj_keys (_payloadables s))
                  (_startDispatching pl s) = (r, s2) ∧
    s' = _stopDispatching s2.
Proof.
  intros Hd. unfold run_dispatch.
  set (n := weight (Some pl) ∅ (_payloadables s)).
  unfold dispatch. rewrite Hd. cbn [invariant]. cbv zeta.
  destruct (_startDispatching_spec pl s) as (E1 & _).
  destruct (dispatch_loop _ _ _) as [r2 s2] eqn:Hl. intros [= -> <-].
  exists n, s2. by rewrite <- E1.
Qed.

(** A round in which no callback has raised an error. *)
Lemma round_delivery pl s r s' :
  _isDispatching s = false →
  sound s →
  run_dispatch pl s = (r, s') →
  Forall (λ ev, is_raised ev = false) (round_log pl s) →
  r = Normal ∧
  ∀ id, id ∈ obj_keys (_payloadables s) →
        obj_has id (_payloadables s') = true →
        id ∈ called (round_log pl s) ∧
        id ∈ handled (round_log pl s) ∧
        truthy (_isHandled s') id = true.
Proof.
  intros Hd [_ Hb] Hrun Hquiet.
  pose proof (run_dispatch_total pl s) as Htot. rewrite Hrun in Htot.
  destruct (run_dispatch_loop _ _ _ _ Hd Hrun) as (n & s2 & Hl & ->).
  destruct (_startDispatching_spec pl s)
    as (E1 & E2 & E3 & _ & E5 & E6 & E7).
  pose proof Hl as Hl1. pose proof Hl as Hl2.
  apply (dispatch_loop_runs _ (exec_runs (S n))) in Hl1 as [evs Hruns];
    [|done].
  pose proof (runs_log _ _ _ _ Hruns) as Hlog. rewrite E5 in Hlog.
  apply (dispatch_loop_trace _ (exec_runs (S n))) in Hl2
    as (body & tail & Hlog2 & _ & _ & Htail); [|done].
  apply (dispatch_loop_delivers _ (exec_runs (S n)) (exec_delivers (S n)))
    in Hl as (evs' & Hlog' & Hdel & Hall); [|done|].
  2:{ intros id' Hin'. rewrite E3. by apply Hb. }
  rewrite E5 in Hlog', Hlog2.
  assert (evs' = evs) as ->
    by (apply (app_inv_head (log s)); by rewrite <- Hlog', Hlog).
  assert (body ++ tail = evs) as Hbt
    by (apply (app_inv_head (log s)); by rewrite <- Hlog2, Hlog).
  rewrite (round_log_eq _ _ _ _ evs Hrun) in * by done.
  assert (r = Normal) as ->.
  { destruct r as [|e|]; [done | | done]. destruct Htail as [id ->].
    rewrite <- Hbt in Hquiet. apply Forall_app in Hquiet as [_ Hquiet].
    by apply Forall_cons in Hquiet as [? _]. }
  split; [done |]. intros id Hin Hreg.
  assert (id ∈ called evs) as Hcalled.
  { apply (runs_pending_called _ _ _ _ Hruns).
    - unfold truthy. rewrite E6. by rewrite decide_True.
    - by apply Hall. }
  split_and!; [done | | by apply Hdel].
  apply (runs_handled_flag_inv _ _ _ _ Hruns).
  - unfold truthy. rewrite E7. by rewrite decide_True.
  - by apply Hdel.
Qed.

Lemma sublist_full {A} (l1 l2 : list A) :
  l1 `sublist_of` l2 → NoDup l2 → (∀ x, x ∈ l2 → x ∈ l1) → l1 = l2.
Proof.
  induction 1 as [|x l1 l2 Hsub IH|x l1 l2 Hsub IH]; intros Hnd Hall.
  - done.
  - apply NoDup_cons in Hnd as [Hx Hnd]. f_equal. apply IH; [done |].
    intros y Hy. assert (y ∈ x :: l1) as Hy' by (apply Hall; by right).
    apply elem_of_cons in Hy' as [->|?]; done.
  - apply NoDup_cons in Hnd as [Hx Hnd]. exfalso. apply Hx.
    eapply elem_of_sublist; [|done]. apply Hall. by left.
Qed.

(** X5: a round in which no callback raises an error ends normally and
    has delivered to everybody: every subscriber that was registered when
    it started and still is when it ends has been entered -- once only --
    and flagged handled. *)
Theorem quiet_round_reaches_everyone pl s r s' :
  isDispatching s = false →
  sound s →
  run_dispatch pl s = (r, s') →
  Forall (λ ev, is_raised ev = false) (round_log pl s) →
  r = Normal ∧
  NoDup (called (round_log pl s)) ∧
  ∀ id, id ∈ obj_keys (_payloadables s) →
        obj_has id (_payloadables s') = true →
        id ∈ called (round_log pl s) ∧
        id ∈ handled (round_log pl s) ∧
        truthy (_isHandled s') id = true.
Proof.
  intros Hd Hs Hrun Hquiet.
  destruct (round_delivery _ _ _ _ Hd Hs Hrun Hquiet) as [Hr Hall].
  split_and!; [done | | done].
  destruct (run_dispatch_round _ _ _ _ Hd Hrun)
    as (s2 & body & tail & Hruns & -> & Hlog & _).
  rewrite (round_log_eq _ _ _ _ _ Hrun Hlog).
  apply (runs_called_once _ _ _ _ Hruns).
Qed.

(** X6: when moreover no callback is entered through [waitFor] and nobody
    is unregistered, the callbacks are entered in exactly the order of
    registration: the list of ids entered is the list of registry keys. *)
Theorem quiet_round_in_registration_order pl s r s' :
  isDispatching s = false →
  sound s →
  run_dispatch pl s = (r, s') →
  Forall (λ ev, is_raised ev = false) (round_log pl s) →
  called (round_log pl s) = called_by_dispatch (round_log pl s) →
  (∀ id, id ∈ obj_keys (_payloadables s) →
         obj_has id (_payloadables s') = true) →
  called (round_log pl s) = obj_keys (_payloadables s).
Proof.
  intros Hd Hs Hrun Hquiet Hflat Hkept.
  destruct (round_delivery _ _ _ _ Hd Hs Hrun Hquiet) as [Hr Hall].
  apply sublist_full; [|apply Hs|].
  - rewrite Hflat.
    destruct (run_dispatch_round _ _ _ _ Hd Hrun)
      as (s2 & body & tail & Hruns & -> & Hlog & Hsub & _ & Htail).
    rewrite (round_log_eq _ _ _ _ _ Hrun Hlog), called_by_dispatch_app.
    subst r. rewrite Htail. by rewrite app_nil_r.
  - intros id Hin. by apply Hall, Hkept.
Qed.

(** X7: a token the engine has issued and that is not in the registry is
    out for good: its callback is entered neither in the rest of the
    current round nor in any later round, whoever calls [waitFor] on it. *)
Theorem unregistered_never_entered n s :
  (n < _lastID s)%N →
  obj_get (token_of n) (_payloadables s) = None →
  (∀ pl, isDispatching s = false →
         token_of n ∉ called (round_log pl s)) ∧
  (∀ fuel p, isDispatching s = true →
     token_of n
     ∉ called (drop (length (log s)) (log (exec fuel p s).2))).
Proof.
  intros Hn Hnone. split.
  - intros pl Hd. destruct (run_dispatch pl s) as [r s'] eqn:Hrun.
    destruct (run_dispatch_round _ _ _ _ Hd Hrun)
      as (s2 & body & tail & Hruns & -> & Hlog & _).
    rewrite (round_log_eq _ _ _ _ _ Hrun Hlog).
    destruct (_startDispatching_spec pl s) as (E1 & _ & E3 & _).
    apply (runs_called_registered _ _ _ _ Hruns); by rewrite ?E1, ?E3.
  - intros fuel p Hd. destruct (exec fuel p s) as [r s'] eqn:He.
    apply exec_runs in He as [evs He]; [|done]. simpl.
    rewrite (runs_log _ _ _ _ He), drop_app_length.
    by apply (runs_called_registered _ _ _ _ He).
Qed.

Lemma waitFor_loop_all_handled call ids s :
  (∀ id, id ∈ ids → truthy (_isPending s) id = true ∧
                    truthy (_isHandled s) id = true) →
  waitFor_loop call ids s = (Normal, s).
Proof.
  induction ids as [|id ids IH]; intros Hall; simpl; [done |].
  destruct (Hall id) as [-> ->]; [by left |]. simpl.
  apply IH. intros id' Hin. apply Hall. by right.
Qed.

(** X8: the flags of a round outlive it.  When a subscriber that was
    entered in a round is unregistered afterwards, a [waitFor] on it in a
    later round does not fail with [UnknownSubscriber]: it is answered from
    the old flags -- skipped as already handled if the callback had
    completed, [CircularDependency] if it had not. *)
Theorem stale_flags_answer_waitFor call pl pl' s id :
  isDispatching s = false →
  id ∈ obj_keys (_payloadables s) →
  id ∈ called (round_log pl s) →
  let s1 := (run_dispatch pl s).2 in
  let s3 := _startDispatching pl' (unregister id s1).2 in
  obj_has id (_payloadables s1) = true →
  (unregister id s1).1 = Normal ∧
  obj_get id (_payloadables s3) = None ∧
  (id ∈ handled (round_log pl s) →
   waitFor call [VObj (Some id)] s3 = (Normal, s3)) ∧
  (id ∉ handled (round_log pl s) →
   waitFor call [VObj (Some id)] s3 = (Throw (CircularDependency id), s3)).
Proof.
  intros Hd Hin Hcalled s1 s3 Hreg. subst s1 s3.
  destruct (run_dispatch pl s) as [r s'] eqn:Hrun.
  destruct (run_dispatch_round _ _ _ _ Hd Hrun)
    as (s2 & body & tail & Hruns & -> & Hlog & _).
  rewrite (round_log_eq _ _ _ _ _ Hrun Hlog) in *. cbn [snd] in *.
  unfold unregister. rewrite Hreg. cbn [negb fst snd].
  set (s4 := with_payloadables _ _).
  destruct (_startDispatching_spec pl' s4) as (E1 & E2 & _ & _ & _ & E6 & E7).
  destruct (_startDispatching_spec pl s) as (_ & _ & _ & _ & _ & _ & F7).
  assert (obj_get id (_payloadables s4) = None) as Hgone
    by apply obj_get_delete_eq.
  assert (id ∉ obj_keys (_payloadables s4)) as Hnin.
  { intros [? ?]%obj_get_keys. congruence. }
  assert (truthy (_isPending (_startDispatching pl' s4)) id = true) as Hp.
  { unfold truthy. rewrite E6, decide_False by done.
    by apply (runs_called_once _ _ _ _ Hruns). }
  split_and!; [done | by rewrite E1 | |].
  - intros Hh. unfold waitFor. rewrite E2. cbn [negb map].
    apply waitFor_loop_all_handled.
    intros id' ->%list_elem_of_singleton. split; [done |].
    unfold truthy. rewrite E7, decide_False by done.
    by apply (runs_handled_flag _ _ _ _ Hruns).
  - intros Hh. apply waitFor_circular; [done..|].
    unfold truthy. rewrite E7, decide_False by done.
    destruct (default false (_isHandled s2 !! id)) eqn:E; [|done].
    exfalso. apply Hh. apply (runs_handled_flag_inv _ _ _ _ Hruns); [|done].
    unfold truthy. by rewrite F7, decide_True.
Qed.

(** ** More on [waitFor] *)

Lemma waitFor_loop_app call ids1 ids2 s :
  waitFor_loop call (ids1 ++ ids2) s
  = match waitFor_loop call ids1 s with
    | (Normal, s') => waitFor_loop call ids2 s'
    | r => r
    end.
Proof.
  revert s. induction ids1 as [|id ids1 IH]; intros s; simpl; [done |].
  destruct (truthy (_isPending s) id).
  - destruct (truthy (_isHandled s) id); simpl; [apply IH | done].
  - destruct (obj_has id (_payloadables s)); simpl; [|done].
    destruct (_invokePayloadable call ByWaitFor id s) as [[|e|] s1];
      [apply IH | done..].
Qed.

(** X9: inside a round, once [waitFor] has returned normally, calling it
    again with the same arguments returns normally at once: no callback is
    entered and the engine is left exactly as it was. *)
Theorem waitFor_again_is_noop fuel call args s s' :
  isDispatching s = true →
  flags_ok s →
  waitFor (exec fuel) args s = (Normal, s') →
  waitFor call args s' = (Normal, s').
Proof.
  unfold isDispatching. intros Hd Hok Hw. unfold waitFor in *.
  rewrite Hd in Hw. simpl in Hw. pose proof Hw as Hw'.
  apply (waitFor_loop_runs _ (exec_runs fuel)) in Hw' as [evs Hruns];
    [|done].
  rewrite (runs_isDispatching _ _ _ _ Hruns), Hd. simpl.
  apply waitFor_loop_all_handled. intros id Hin.
  assert (truthy (_isHandled s') id = true) as Hh
    by by eapply (waitFor_loop_handled _ (exec_runs fuel)).
  split; [|done]. by apply (runs_flags_ok _ _ _ _ Hruns).
Qed.



End Flux.

(** * The stores built on the engine ([Store], [Dispatcher])

    The module creates one [Dispatcher]; its [dispatch(name, data)] hands
    the engine the object [{name, data}], here a pair.  A [Store] registers
    itself with that dispatcher when it is constructed and keeps, under each
    name, the list of handlers [onPayload] was given; a handler is
    arbitrary code run on [data].  [_verbose] keeps its initial value
    [false], so the base [_onPayload] logs nothing. *)

Lemma obj_keys_set_present {V} k v (o : list (string * V)) :
  is_Some (obj_get k o) → obj_keys (obj_set k v o) = obj_keys o.
Proof.
  induction o as [|[k' v'] o IH]; simpl; [by intros [? ?] |].
  destruct (decide (k = k')) as [->|Hne]; simpl; [done |].
  intros H. f_equal. by apply IH.
Qed.

Section Stores.

Context {D : Type}.

Definition handler : Type := D → @prog (string * D).

Record store : Type := mkStore {
  callbacks : list (string * list handler);
  dispatchToken : option string
}.

(** flux.js:167-169 *)
Definition Dispatcher_dispatch (name : string) (data : D)
    (s : @state (string * D)) : outcome * @state (string * D) :=
  run_dispatch (name, data) s.

(** flux.js:245-251: [onPayload(name, callback)] *)
Definition Store_onPayload (name : string) (callback : handler) (st : store)
  : store :=
  let cbs :=
    match obj_get name (callbacks st) with
    | None => obj_set name [] (callbacks st)
    | Some _ => callbacks st
    end in
  let cbs := obj_set name (default [] (obj_get name cbs) ++ [callback]) cbs in
  mkStore cbs (dispatchToken st).

(** The loop of flux.js:257-259. *)
Fixpoint run_handlers (hs : list handler) (data : D) : @prog (string * D) :=
  match hs with
  | [] => Skip
  | callback :: hs' => Seq (callback data) (run_handlers hs' data)
  end.

(** What destructuring [undefined] throws, as an error of subscriber
    code. *)
Definition type_error : nat := 0.

(** flux.js:253-262: [_onPayload(payload)] *)
Definition Store__onPayload (st : store) : @callback (string * D) :=
  λ payload,
    match payload with
    | None => Raise type_error
    | Some (name, data) =>
        match obj_get name (callbacks st) with
        | Some hs => run_handlers hs data
        | None => Skip
        end
    end.

(** flux.js:238-243: the constructor; [defaults()] does nothing. *)
Definition Store_new (s : @state (string * D))
  : store * @state (string * D) :=
  let this := mkStore [] None in
  let '(id, s) := register (Store__onPayload this) s in
  (mkStore (callbacks this) (Some id), s).

(** The registry holds the store object itself: what [onPayload] adds to a
    registered store is there for the next round. *)
Definition Store_onPayload_in (name : string) (callback : handler)
    (st : store) (s : @state (string * D)) : store * @state (string * D) :=
  let st := Store_onPayload name callback st in
  match dispatchToken st with
  | Some id =>
      if obj_has id (_payloadables s)
      then (st, with_payloadables
                  (obj_set id (Store__onPayload st) (_payloadables s)) s)
      else (st, s)
  | None => (st, s)
  end.

(** The handlers given under [name], in the order they were given. *)
Definition handlers_for (name : string) (adds : list (string * handler))
  : list handler :=
  (filter (λ nh, nh.1 = name) adds).*2.

Lemma Store_onPayload_get name callback st name' :
  default [] (obj_get name' (callbacks (Store_onPayload name callback st)))
  = default [] (obj_get name' (callbacks st))
    ++ (if decide (name' = name) then [callback] else []).
Proof.
  unfold Store_onPayload. simpl.
  destruct (decide (name' = name)) as [->|Hne].
  - rewrite obj_get_set_eq. simpl.
    destruct (obj_get name (callbacks st)) eqn:E; simpl;
      by rewrite ?E, ?obj_get_set_eq.
  - rewrite app_nil_r, obj_get_set_ne by done.
    destruct (obj_get name (callbacks st)) eqn:E; [done |].
    by rewrite obj_get_set_ne.
Qed.

Lemma Store__onPayload_handlers st name data :
  Store__onPayload st (Some (name, data))
  = run_handlers (default [] (obj_get name (callbacks st))) data.
Proof. simpl. by destruct (obj_get name (callbacks st)). Qed.

Lemma handlers_for_snoc name adds n h :
  handlers_for name (adds ++ [(n, h)])
  = handlers_for name adds ++ (if decide (name = n) then [h] else []).
Proof.
  unfold handlers_for. rewrite filter_app, fmap_app. f_equal.
  destruct (decide (name = n)) as [->|Hne].
  - by rewrite filter_cons_True.
  - rewrite filter_cons_False; [done |]. simpl. congruence.
Qed.

Lemma store_build s adds :
  let start := Store_new s in
  let final :=
    foldl (λ acc nh, Store_onPayload_in nh.1 nh.2 acc.1 acc.2) start adds in
  let id := token_of (_lastID s) in
  dispatchToken final.1 = Some id ∧
  obj_keys (_payloadables final.2) = obj_keys (_payloadables start.2) ∧
  obj_get id (_payloadables final.2) = Some (Store__onPayload final.1) ∧
  ∀ name, default [] (obj_get name (callbacks final.1))
          = handlers_for name adds.
Proof.
  cbv zeta. induction adds as [|[n h] adds IH] using rev_ind.
  - cbn. split_and!; [done | done | apply obj_get_set_eq | done].
  - rewrite foldl_app. cbn [foldl fst snd].
    destruct (foldl _ _ adds) as [st s1]. cbn [fst snd] in *.
    destruct IH as (Htok & Hkeys & Hget & Hrun).
    unfold Store_onPayload_in.
    change (dispatchToken (Store_onPayload n h st)) with (dispatchToken st).
    rewrite Htok.
    replace (obj_has _ (_payloadables s1)) with true
      by (symmetry; apply obj_has_true; eauto).
    cbn [fst snd _payloadables with_payloadables].
    split_and!; [done | | apply obj_get_set_eq |].
    + rewrite <- Hkeys. apply obj_keys_set_present. eauto.
    + intros name.
      rewrite Store_onPayload_get, handlers_for_snoc. by rewrite Hrun.
Qed.


Lemma exec_body_run_handlers_app call hs1 hs2 data (s : @state (string * D)) :
  exec_body call (run_handlers (hs1 ++ hs2) data) s
  = match exec_body call (run_handlers hs1 data) s with
    | (Normal, s') => exec_body call (run_handlers hs2 data) s'
    | r => r
    end.
Proof.
  revert s. induction hs1 as [|h hs1 IH]; intros s; simpl; [done |].
  destruct (exec_body call (h data) s) as [[|e|] s1]; [apply IH | done..].
Qed.

(** X13: the handlers of a store run one after the other, each from the
    engine state the one before left; the first handler that throws ends
    the callback with its error, and the handlers after it are not run. *)
Theorem store_handler_error_stops_the_rest call hs1 h hs2 data s s1 e s2 :
  exec_body call (run_handlers hs1 data) s = (Normal, s1) →
  exec_body call (h data) s1 = (Throw e, s2) →
  exec_body call (run_handlers (hs1 ++ h :: hs2) data) s = (Throw e, s2) ∧
  ∀ hs, exec_body call (run_handlers (hs1 ++ hs) data) s
        = exec_body call (run_handlers hs data) s1.
Proof.
  intros H1 H2. split.
  - rewrite exec_body_run_handlers_app, H1. simpl. by rewrite H2.
  - intros hs. by rewrite exec_body_run_handlers_app, H1.
Qed.

Lemma called_elem {payload} id (evs : list (@event payload)) :
  id ∈ called evs → ∃ by_ arg, Called by_ id arg ∈ evs.
Proof.
  induction evs as [|ev evs IH]; simpl; [by intros ?%elem_of_nil |].
  destruct ev as [by_ id' arg| | |];
    try (intros (by0 & arg0 & Hin)%IH; exists by0, arg0; by right).
  intros [->|(by0 & arg0 & Hin)%IH]%elem_of_cons.
  - exists by_, arg. left.
  - exists by0, arg0. by right.
Qed.

Lemma store_build_frame s adds :
  let final :=
    foldl (λ acc nh, Store_onPayload_in nh.1 nh.2 acc.1 acc.2)
          (Store_new s) adds in
  _isDispatching final.2 = _isDispatching s ∧
  _lastID final.2 = (_lastID s + 1)%N.
Proof.
  cbv zeta. induction adds as [|[n h] adds IH] using rev_ind; [done |].
  rewrite foldl_app. cbn [foldl fst snd].
  destruct (foldl _ _ adds) as [st s1]. cbn [fst snd] in *.
  unfold Store_onPayload_in.
  destruct (dispatchToken _); [|done].
  by destruct (obj_has _ _).
Qed.


End Stores.

(** * [invariant]: the message of an error

    flux.js:19-39, with the message kept: [None] when the call returns,
    [Some message] when it throws.  [args] are the arguments after the
    format, already turned into strings; the source reads six of them and
    takes [undefined] for one that is not there. *)

Fixpoint format_args (format : string) (args : list string) : string :=
  match format with
  | EmptyString => EmptyString
  | String c rest =>
      if Ascii.eqb c "%"%char then
        match rest with
        | String c' rest' =>
            if Ascii.eqb c' "s"%char
            then default "undefined" (head args)
                 +:+ format_args rest' (tail args)
            else String c (format_args rest args)
        | EmptyString => String c (format_args rest args)
        end
      else String c (format_args rest args)
  end.

Definition invariant_message (condition : bool) (format : option string)
    (args : list string) : option string :=
  match format with
  | None => Some "invariant requires an error message argument"
  | Some format =>
      if condition then None
      else Some ("Invariant Violation: " +:+ format_args format (take 6 args))
  end.

Fixpoint percent_free (s : string) : bool :=
  match s with
  | EmptyString => true
  | String c rest => negb (Ascii.eqb c "%"%char) && percent_free rest
  end.

Lemma format_args_percent_free pre rest args :
  percent_free pre = true →
  format_args (pre +:+ rest) args = pre +:+ format_args rest args.
Proof.
  induction pre as [|c pre IH]; simpl; [done |].
  intros [Hc Hpre]%andb_prop. apply negb_true_iff in Hc. rewrite Hc.
  by rewrite IH.
Qed.

Lemma format_args_plain format args :
  percent_free format = true → format_args format args = format.
Proof.
  induction format as [|c format IH]; simpl; [done |].
  intros [Hc Hpre]%andb_prop. apply negb_true_iff in Hc. rewrite Hc.
  by rewrite IH.
Qed.

(** X14: a failing [invariant] throws "Invariant Violation: " followed by
    the format with the first [%s] replaced by the first argument as it
    is -- a [%s] inside the argument is not replaced again -- when no [%]
    comes before it; a format without [%] is thrown unchanged, whatever
    the arguments; and a call without a format throws even when the
    condition holds. *)
Theorem invariant_message_shape pre post arg args condition :
  percent_free pre = true →
  invariant_message false (Some (pre +:+ "%s" +:+ post)) (arg :: args)
  = Some ("Invariant Violation: " +:+ pre +:+ arg
          +:+ format_args post (take 5 args)) ∧
  (percent_free post = true →
   invariant_message false (Some (pre +:+ "%s" +:+ post)) (arg :: args)
   = Some ("Invariant Violation: " +:+ pre +:+ arg +:+ post)) ∧
  invariant_message false (Some pre) args
  = Some ("Invariant Violation: " +:+ pre) ∧
  invariant_message true (Some pre) args = None ∧
  invariant_message condition None args
  = Some "invariant requires an error message argument".
Proof.
  intros Hpre. unfold invariant_message.
  assert (format_args (pre +:+ "%s" +:+ post) (take 6 (arg :: args))
          = pre +:+ arg +:+ format_args post (take 5 args)) as E.
  { by rewrite format_args_percent_free. }
  split_and!; try done.
  - by rewrite E.
  - intros Hpost. by rewrite E, format_args_plain.
  - by rewrite format_args_plain.
Qed.

Lemma percent_free_app s1 s2 :
  percent_free s1 = true → percent_free s2 = true →
  percent_free (s1 +:+ s2) = true.
Proof.
  induction s1 as [|c s1 IH]; simpl; [done |].
  intros [Hc H1]%andb_prop H2. rewrite Hc. simpl. by apply IH.
Qed.

(** The formats of flux.js:77, 92 and 95, for an engine of class [cls]. *)
Definition unregister_format (cls : string) : string :=
  cls +:+ ".unregister(...): `%s` does not map to a registered callback.".
Definition circular_format (cls : string) : string :=
  cls +:+ ".waitFor(...): Circular dependency detected while "
      +:+ "waiting for `%s`.".
Definition unknown_format (cls : string) : string :=
  cls +:+ ".waitFor(...): `%s` does not map to a registered callback.".

(** X15: the errors of [unregister] and [waitFor] carry the offending id
    between backquotes, character for character -- also when the id itself
    holds a [%s] -- for every class name without [%]. *)
Theorem engine_messages_name_the_id cls id :
  percent_free cls = true →
  invariant_message false (Some (unregister_format cls)) [id]
  = Some ("Invariant Violation: " +:+ cls +:+ ".unregister(...): `" +:+ id
          +:+ "` does not map to a registered callback.") ∧
  invariant_message false (Some (circular_format cls)) [id]
  = Some ("Invariant Violation: " +:+ cls
          +:+ ".waitFor(...): Circular dependency detected while waiting for `"
          +:+ id +:+ "`.") ∧
  invariant_message false (Some (unknown_format cls)) [id]
  = Some ("Invariant Violation: " +:+ cls +:+ ".waitFor(...): `" +:+ id
          +:+ "` does not map to a registered callback.").
Proof.
  intros Hcls. unfold invariant_message, unregister_format, circular_format,
    unknown_format.
  split_and!; f_equal; f_equal.
  - change (cls +:+ ".unregister(...): `%s` does not map to a registered callback.")
      with (cls +:+ (".unregister(...): `"
                     +:+ ("%s` does not map to a registered callback."))).
    by rewrite !format_args_percent_free.
  - change (cls +:+ ".waitFor(...): Circular dependency detected while "
                +:+ "waiting for `%s`.")
      with (cls +:+ (".waitFor(...): Circular dependency detected while waiting for `"
                     +:+ "%s`.")).
    by rewrite !format_args_percent_free.
  - change (cls +:+ ".waitFor(...): `%s` does not map to a registered callback.")
      with (cls +:+ (".waitFor(...): `"
                     +:+ ("%s` does not map to a registered callback."))).
    by rewrite !format_args_percent_free.
Qed.

(** ** The theorems at concrete engines

    Payloads are numbers here. *)


Lemma mutual_wait_is_circular_witness :
  isDispatching (@mutual_engine nat) = false ∧
  (1 ≠ 2)%N ∧
  (run_dispatch 0 (@mutual_engine nat)).1
  = Throw (CircularDependency "ID_1") ∧
  isDispatching (run_dispatch 0 (@mutual_engine nat)).2 = false ∧
  (run_dispatch 1 (run_dispatch 0 (@mutual_engine nat)).2).1
  = Throw (CircularDependency "ID_1").
Proof.
  assert (1 ≠ 2)%N as Hne by discriminate.
  pose proof (@mutual_wait_is_circular nat 0 1 mutual_engine 1 2
                (λ _, Mark 1) (λ _, Mark 2) eq_refl Hne eq_refl)
    as (H1 & _ & H2 & H3 & _).
  split_and!; [reflexivity | exact Hne | exact H1 | exact H2 | exact H3].
Defined.

Lemma dispatch_reentrant_rejected_witness :
  let s := _startDispatching 0 (@idle_engine nat) in
  isDispatching s = true ∧
  dispatch (exec 1) 1 s = (Throw ReentrantDispatch, s).
Proof.
  split; [reflexivity |].
  apply (dispatch_reentrant_rejected (exec 1) 1 (_startDispatching 0 (@idle_engine nat))).
  reflexivity.
Defined.

Lemma dispatch_tears_down_witness :
  let s' := (run_dispatch 0 (@failing_engine nat)).2 in
  isDispatching (@failing_engine nat) = false ∧
  run_dispatch 0 (@failing_engine nat) = (Throw (UserError 7), s') ∧
  _pendingPayload s' = None ∧
  isDispatching s' = false.
Proof.
  assert (run_dispatch 0 (@failing_engine nat)
          = (Throw (UserError 7), (run_dispatch 0 (@failing_engine nat)).2)) as Hrun.
  { vm_compute. reflexivity. }
  pose proof (dispatch_tears_down 0 (@failing_engine nat) _ _ eq_refl Hrun)
    as (_ & H1 & H2 & _).
  split_and!; [reflexivity | exact Hrun | exact H1 | exact H2].
Defined.

Lemma late_subscriber_reached_by_waitFor_witness :
  let s1 := _startDispatching 0 (@idle_engine nat) in
  let fresh : callback := λ _, Mark 9 in
  isDispatching (@late_engine nat) = false ∧
  (∀ id arg, Called ByDispatch id arg ∈ round_log 0 (@late_engine nat) →
             id ∈ obj_keys (_payloadables (@late_engine nat))) ∧
  isDispatching s1 = true ∧
  truthy (_isPending s1) (register fresh s1).1 = false ∧
  ∃ evs, log (waitFor (exec 1) [VObj (Some (register fresh s1).1)]
                      (register fresh s1).2).2
         = log s1 ++ Called ByWaitFor "ID_2" (Some 0) :: evs.
Proof.
  pose proof (late_subscriber_reached_by_waitFor 0 (@late_engine nat) eq_refl)
    as (Hloop & _ & Hwait).
  split_and!; [reflexivity | exact Hloop | reflexivity | reflexivity |].
  exact (Hwait 1 (λ _, Mark 9) (_startDispatching 0 (@idle_engine nat))
               eq_refl eq_refl).
Defined.

Lemma token_state_advances_witness :
  let s' := (run_dispatch 0 (@failing_engine nat)).2 in
  isDispatching (@failing_engine nat) = false ∧
  flags_ok (@failing_engine nat) ∧
  run_dispatch 0 (@failing_engine nat) = (Throw (UserError 7), s') ∧
  NoDup (called (round_log 0 (@failing_engine nat))) ∧
  flags_ok s'.
Proof.
  assert (flags_ok (@failing_engine nat)) as Hok.
  { intros id. vm_compute. discriminate. }
  assert (run_dispatch 0 (@failing_engine nat)
          = (Throw (UserError 7), (run_dispatch 0 (@failing_engine nat)).2)) as Hrun.
  { vm_compute. reflexivity. }
  pose proof (token_state_advances 0 (@failing_engine nat) _ _ eq_refl Hok Hrun)
    as (H1 & _ & _ & _ & H2 & _).
  split_and!; [reflexivity | exact Hok | exact Hrun | exact H1 | exact H2].
Defined.



Lemma unregister_unknown_witness :
  obj_get (token_of 2) (_payloadables (@idle_engine nat)) = None ∧
  unregister "ID_2" (@idle_engine nat)
  = (Throw (UnknownSubscriber "ID_2"), idle_engine) ∧
  (unregister "ID_1" (@idle_engine nat)).1 = Normal ∧
  (unregister "ID_1" (unregister "ID_1" (@idle_engine nat)).2).1
  = Throw (UnknownSubscriber "ID_1").
Proof.
  split_and!; [reflexivity | | reflexivity |].
  - exact (proj1 (unregister_unknown 2 (@idle_engine nat)) eq_refl).
  - exact (f_equal fst (proj2 (unregister_unknown 1 (@idle_engine nat)))).
Defined.

Lemma waitFor_raw_token_unknown_witness :
  let s := _startDispatching 0 (@idle_engine nat) in
  wf s ∧
  _isDispatching s = true ∧
  obj_get "ID_1" (_payloadables s) = Some (λ _, Skip) ∧
  truthy (_isPending s) "ID_1" = false ∧
  waitFor (exec 1) [VStr "ID_1"] s
  = (Throw (UnknownSubscriber "undefined"), s).
Proof.
  assert (wf (_startDispatching 0 (@idle_engine nat))) as Hwf.
  { split; vm_compute; reflexivity. }
  split_and!; [exact Hwf | reflexivity..|].
  exact (proj1 (waitFor_raw_token_unknown (exec 1) "ID_1" (λ _, Skip)
                  (_startDispatching 0 (@idle_engine nat)) Hwf eq_refl eq_refl eq_refl)).
Defined.

(** ** Where the code departs from the wording *)

(** After a round the flags of the subscriber that ran still read true. *)
Lemma dispatch_leaves_flags_set :
  ¬ round_state_cleared (run_dispatch 0 (@idle_engine nat)).2.
Proof.
  intros (Hpending & _). specialize (Hpending "ID_1").
  vm_compute in Hpending. discriminate.
Qed.

(** A subscriber registered in mid-round is entered in that round, with
    its payload, through [waitFor]. *)
Lemma late_subscriber_is_invoked : ¬ late_never_invoked 0 (@late_engine nat).
Proof.
  intros H. specialize (H ByWaitFor "ID_2" (Some 0)).
  assert (round_log 0 (@late_engine nat)
          = [Called ByDispatch "ID_1" (Some 0);
             Called ByWaitFor "ID_2" (Some 0); Marked 9;
             Handled "ID_2"; Handled "ID_1"]) as E.
  { vm_compute. reflexivity. }
  rewrite E in H.
  assert ("ID_2" ∈ obj_keys (_payloadables (@late_engine nat))) as Hin.
  { apply H. right. left. }
  vm_compute in Hin. apply list_elem_of_singleton in Hin. discriminate.
Qed.

(** ** The further theorems at concrete engines *)

(** Three subscribers that call no engine method. *)
Definition plain_engine : @state nat :=
  (register (λ _, Mark 3)
     (register (λ _, Mark 2) (register (λ _, Mark 1) init).2).2).2.

Lemma plain_engine_sound : sound plain_engine.
Proof. repeat apply sound_register. apply sound_init. Qed.

Lemma chain_engine_sound : sound (@chain_engine nat [RB; RD; RA; RC]).
Proof. repeat apply sound_register. apply sound_init. Qed.

Lemma failing_engine_sound : sound (@failing_engine nat).
Proof. repeat apply sound_register. apply sound_init. Qed.




Lemma unregister_removes_one_witness :
  obj_has "ID_2" (_payloadables plain_engine) = true ∧
  ∃ s', unregister "ID_2" plain_engine = (Normal, s') ∧
        obj_keys (_payloadables s') = ["ID_1"; "ID_3"].
Proof.
  split; [reflexivity |].
  destruct (unregister_removes_one "ID_2" plain_engine eq_refl)
    as (s' & Hun & Hkeys & _).
  exists s'. split; [exact Hun |]. rewrite Hkeys. reflexivity.
Defined.

Lemma quiet_round_reaches_everyone_witness :
  let s := @chain_engine nat [RB; RD; RA; RC] in
  isDispatching s = false ∧
  sound s ∧
  Forall (λ ev, is_raised ev = false) (round_log 5 s) ∧
  (run_dispatch 5 s).1 = Normal ∧
  NoDup (called (round_log 5 s)).
Proof.
  assert (Forall (λ ev, is_raised ev = false)
            (round_log 5 (@chain_engine nat [RB; RD; RA; RC]))) as Hquiet.
  { vm_compute. repeat constructor. }
  pose proof (quiet_round_reaches_everyone 5
                (@chain_engine nat [RB; RD; RA; RC]) _ _ eq_refl
                chain_engine_sound (surjective_pairing _) Hquiet)
    as (Hr & Hnd & _).
  split_and!; [reflexivity | exact chain_engine_sound | exact Hquiet
              | exact Hr | exact Hnd].
Defined.

Lemma quiet_round_in_registration_order_witness :
  isDispatching plain_engine = false ∧
  sound plain_engine ∧
  Forall (λ ev, is_raised ev = false) (round_log 0 plain_engine) ∧
  called (round_log 0 plain_engine)
  = called_by_dispatch (round_log 0 plain_engine) ∧
  called (round_log 0 plain_engine) = ["ID_1"; "ID_2"; "ID_3"].
Proof.
  assert (Forall (λ ev, is_raised ev = false) (round_log 0 plain_engine))
    as Hquiet.
  { vm_compute. repeat constructor. }
  assert (called (round_log 0 plain_engine)
          = called_by_dispatch (round_log 0 plain_engine)) as Hflat.
  { vm_compute. reflexivity. }
  assert (∀ id, id ∈ obj_keys (_payloadables plain_engine) →
                obj_has id (_payloadables (run_dispatch 0 plain_engine).2)
                = true) as Hkept.
  { intros id Hin. vm_compute in Hin.
    repeat (apply elem_of_cons in Hin as [->|Hin]); try reflexivity.
    by apply elem_of_nil in Hin. }
  split_and!; [reflexivity | exact plain_engine_sound | exact Hquiet
              | exact Hflat |].
  exact (quiet_round_in_registration_order 0 plain_engine _ _ eq_refl
           plain_engine_sound (surjective_pairing _) Hquiet Hflat Hkept).
Defined.

Lemma unregistered_never_entered_witness :
  let s := (unregister "ID_2" plain_engine).2 in
  (2 < _lastID s)%N ∧
  obj_get (token_of 2) (_payloadables s) = None ∧
  isDispatching s = false ∧
  token_of 2 ∉ called (round_log 0 s).
Proof.
  assert (2 < _lastID (unregister "ID_2" plain_engine).2)%N as Hn
    by (vm_compute; reflexivity).
  split_and!; [exact Hn | reflexivity | reflexivity |].
  exact (proj1 (unregistered_never_entered 2
                  (unregister "ID_2" plain_engine).2 Hn eq_refl) 0 eq_refl).
Defined.

Lemma stale_flags_answer_waitFor_witness :
  let s1 := (run_dispatch 0 (@failing_engine nat)).2 in
  let s3 := _startDispatching 1 (unregister "ID_2" s1).2 in
  isDispatching (@failing_engine nat) = false ∧
  "ID_2" ∈ obj_keys (_payloadables (@failing_engine nat)) ∧
  "ID_2" ∈ called (round_log 0 (@failing_engine nat)) ∧
  obj_has "ID_2" (_payloadables s1) = true ∧
  ("ID_2" ∉ handled (round_log 0 (@failing_engine nat))) ∧
  waitFor (exec 1) [VObj (Some "ID_2")] s3
  = (Throw (CircularDependency "ID_2"), s3).
Proof.
  assert ("ID_2" ∈ obj_keys (_payloadables (@failing_engine nat))) as Hin.
  { apply (bool_decide_unpack _). vm_compute. exact I. }
  assert ("ID_2" ∈ called (round_log 0 (@failing_engine nat))) as Hcalled.
  { apply (bool_decide_unpack _). vm_compute. exact I. }
  assert ("ID_2" ∉ handled (round_log 0 (@failing_engine nat))) as Hnh.
  { apply (bool_decide_unpack _). vm_compute. exact I. }
  pose proof (stale_flags_answer_waitFor (exec 1) 0 1 (@failing_engine nat)
                "ID_2" eq_refl Hin Hcalled eq_refl) as (_ & _ & _ & Hcirc).
  split_and!; [reflexivity | exact Hin | exact Hcalled | reflexivity
              | exact Hnh | exact (Hcirc Hnh)].
Defined.

Lemma waitFor_again_is_noop_witness :
  let s := _startDispatching 5 (@chain_engine nat [RB; RD; RA; RC]) in
  let s' := (waitFor (exec 2) [VObj (Some "ID_1")] s).2 in
  isDispatching s = true ∧
  flags_ok s ∧
  waitFor (exec 2) [VObj (Some "ID_1")] s = (Normal, s') ∧
  waitFor (exec 0) [VObj (Some "ID_1")] s' = (Normal, s').
Proof.
  assert (flags_ok (_startDispatching 5 (@chain_engine nat [RB; RD; RA; RC])))
    as Hok.
  { apply _startDispatching_flags_ok. intros id. vm_compute. discriminate. }
  assert (waitFor (exec 2) [VObj (Some "ID_1")]
            (_startDispatching 5 (@chain_engine nat [RB; RD; RA; RC]))
          = (Normal,
             (waitFor (exec 2) [VObj (Some "ID_1")]
                (_startDispatching 5 (@chain_engine nat [RB; RD; RA; RC]))).2))
    as Hwait.
  { vm_compute. reflexivity. }
  split_and!; [reflexivity | exact Hok | exact Hwait |].
  exact (waitFor_again_is_noop 2 (exec 0) [VObj (Some "ID_1")]
           (_startDispatching 5 (@chain_engine nat [RB; RD; RA; RC])) _
           eq_refl Hok Hwait).
Defined.


Lemma store_handler_error_stops_the_rest_witness :
  let s : @state (string * nat) := init in
  let first : @handler nat := λ d, Mark d in
  let failing : @handler nat := λ d, Raise d in
  let last : @handler nat := λ d, Mark 9 in
  exec_body (exec 0) (run_handlers [first] 3) s
  = (Normal, emit (Marked 3) s) ∧
  exec_body (exec 0) (failing 3) (emit (Marked 3) s)
  = (Throw (UserError 3), emit (Marked 3) s) ∧
  exec_body (exec 0) (run_handlers ([first] ++ failing :: [last]) 3) s
  = (Throw (UserError 3), emit (Marked 3) s).
Proof.
  split_and!; [reflexivity | reflexivity |].
  exact (proj1 (store_handler_error_stops_the_rest (exec 0)
                  [λ d, Mark d] (λ d, Raise d) [λ d, Mark 9] 3
                  (@init (string * nat)) _ _ _ eq_refl eq_refl)).
Defined.

Lemma invariant_message_shape_witness :
  percent_free "Dispatch.dispatch(...): id " = true ∧
  invariant_message false (Some "Dispatch.dispatch(...): id %s, twice %s")
                    ["%s"]
  = Some "Invariant Violation: Dispatch.dispatch(...): id %s, twice undefined".
Proof.
  split; [reflexivity |].
  exact (proj1 (invariant_message_shape "Dispatch.dispatch(...): id "
                  ", twice %s" "%s" [] false eq_refl)).
Defined.

Lemma engine_messages_name_the_id_witness :
  percent_free "Dispatcher" = true ∧
  invariant_message false (Some (unregister_format "Dispatcher")) ["ID_7"]
  = Some "Invariant Violation: Dispatcher.unregister(...): `ID_7` does not map to a registered callback.".
Proof.
  split; [reflexivity |].
  exact (proj1 (engine_messages_name_the_id "Dispatcher" "ID_7" eq_refl)).
Defined.

